(** * HipHTML: a cursor over a parsed HTML tree

    Shallow embedding of [parser.go] (package [hiphtml]) and of the part of
    [golang.org/x/net/html] it reads: the node record with its five links,
    the node kind and the tag atom.

    The Go heap is a partial map from addresses to node records; the methods
    of [*Parser] are functions in a small state monad over the [Parser]
    record.  Loops take fuel; the theorems show how much is enough on the
    heap of a finite tree. *)

From Stdlib Require Import ZArith List Bool Lia Arith.
Import ListNotations.

Set Implicit Arguments.

(** ** Data model *)

(** Addresses of nodes.  Any injective naming of the nodes is as good as
    another; the heap of a tree (below) names a node by the child indices on
    the way from it up to the root. *)
Definition ptr : Type := list nat.

(** [atom.Atom] is a [uint32]; only equality is used on it. *)
Definition Atom : Type := Z.

Module html.

(** [html.NodeType] *)
Inductive NodeType : Type :=
| ErrorNode | TextNode | DocumentNode | ElementNode
| CommentNode | DoctypeNode | RawNode.

Definition NodeType_eqb (a b : NodeType) : bool :=
  match a, b with
  | ErrorNode, ErrorNode | TextNode, TextNode
  | DocumentNode, DocumentNode | ElementNode, ElementNode
  | CommentNode, CommentNode | DoctypeNode, DoctypeNode
  | RawNode, RawNode => true
  | _, _ => false
  end.

(** [html.Node]: the fields the cursor reads; a nil link is [None]. *)
Record Node : Type := mkNode {
  Parent : option ptr;
  FirstChild : option ptr;
  LastChild : option ptr;
  PrevSibling : option ptr;
  NextSibling : option ptr;
  Type_ : NodeType;
  DataAtom : Atom
}.

End html.

(** The heap: what is stored at an address, if anything. *)
Definition Heap : Type := ptr -> option html.Node.

(** Parser errors *)
Inductive Error : Type :=
| ErrBegOfDoc | ErrEndOfDoc | ErrNoSuchRelative.

(** [type Parser struct { doc, node *html.Node; level int }] *)
Record Parser : Type := mkParser {
  doc : ptr;
  node : ptr;
  level : Z
}.

(** Go's [int] on the 64-bit targets: two's complement wrap-around. *)
Definition int_min : Z := (- 2 ^ 63)%Z.
Definition int_max : Z := (2 ^ 63 - 1)%Z.
Definition int_wrap (z : Z) : Z := ((z + 2 ^ 63) mod 2 ^ 64 - 2 ^ 63)%Z.
Definition in_int (z : Z) : Prop := (int_min <= z <= int_max)%Z.

(** What a method returns, a node pointer and an error: the node, or the
    error with a nil node. *)
Inductive Result : Type :=
| Ok (n : ptr)
| Fail (e : Error).

(** ** The monad of the methods *)

Inductive Outcome (A : Type) : Type :=
| Done (a : A) (p : Parser)   (* returned [a], the receiver is now [p] *)
| Panic                       (* dereference of an address that holds no node *)
| OutOfFuel.                  (* a loop used up its fuel *)

Arguments Panic {A}.
Arguments OutOfFuel {A}.

Definition M (A : Type) : Type := Parser -> Outcome A.

Definition ret {A} (a : A) : M A := fun p => Done a p.

Definition bind {A B} (m : M A) (k : A -> M B) : M B :=
  fun p => match m p with
           | Done a p' => k a p'
           | Panic => Panic
           | OutOfFuel => OutOfFuel
           end.

Declare Scope go_scope.
Delimit Scope go_scope with go.
Notation "x <- m ;; k" := (bind m (fun x => k))
  (at level 61, m at next level, right associativity) : go_scope.
Notation "m ;;; k" := (bind m (fun _ => k))
  (at level 61, right associativity) : go_scope.
Open Scope go_scope.

Definition out_of_fuel {A} : M A := fun _ => OutOfFuel.

Definition get_doc : M ptr := fun p => Done (doc p) p.
Definition get_node : M ptr := fun p => Done (node p) p.
Definition get_level : M Z := fun p => Done (level p) p.
Definition set_node (n : ptr) : M unit :=
  fun p => Done tt (mkParser (doc p) n (level p)).
Definition set_level (l : Z) : M unit :=
  fun p => Done tt (mkParser (doc p) (node p) l).

Section Methods.

Variable h : Heap.

(** [*n] *)
Definition load (n : ptr) : M html.Node :=
  fun p => match h n with
           | Some nd => Done nd p
           | None => Panic
           end.

(** [isElem] *)
Definition isElem (n : ptr) : M bool :=
  nd <- load n ;;
  ret (html.NodeType_eqb (html.Type_ nd) html.ElementNode).

(** [isText] *)
Definition isText (n : ptr) : M bool :=
  nd <- load n ;;
  ret (html.NodeType_eqb (html.Type_ nd) html.TextNode).

(** [NewParser], after [html.Parse] has returned the document [d]. *)
Definition NewParser (d : ptr) : Parser := mkParser d d 0%Z.

(** [Node] and [Level] *)
Definition Node : M ptr := get_node.
Definition Level : M Z := get_level.

(** ** Primitive moves *)

Definition NextSibling : M Result :=
  n <- get_node ;; nd <- load n ;;
  match html.NextSibling nd with
  | None => ret (Fail ErrNoSuchRelative)
  | Some s => set_node s ;;; n' <- get_node ;; ret (Ok n')
  end.

Definition PrevSibling : M Result :=
  n <- get_node ;; nd <- load n ;;
  match html.PrevSibling nd with
  | None => ret (Fail ErrNoSuchRelative)
  | Some s => set_node s ;;; n' <- get_node ;; ret (Ok n')
  end.

Definition Parent : M Result :=
  n <- get_node ;; nd <- load n ;;
  match html.Parent nd with
  | None => ret (Fail ErrNoSuchRelative)
  | Some s =>
      set_node s ;;;
      l <- get_level ;; set_level (int_wrap (l - 1)) ;;;
      n' <- get_node ;; ret (Ok n')
  end.

Definition FirstChild : M Result :=
  n <- get_node ;; nd <- load n ;;
  match html.FirstChild nd with
  | None => ret (Fail ErrNoSuchRelative)
  | Some s =>
      set_node s ;;;
      l <- get_level ;; set_level (int_wrap (l + 1)) ;;;
      n' <- get_node ;; ret (Ok n')
  end.

Definition LastChild : M Result :=
  n <- get_node ;; nd <- load n ;;
  match html.LastChild nd with
  | None => ret (Fail ErrNoSuchRelative)
  | Some s =>
      set_node s ;;;
      l <- get_level ;; set_level (int_wrap (l + 1)) ;;;
      n' <- get_node ;; ret (Ok n')
  end.

(** ** Sibling searches *)

(** The loop of [nextSiblingAscending]: [Some n] when the function
    returned [n] from inside the loop, [None] when the loop was left
    because [Parent] failed. *)
Fixpoint nextSiblingAscending_loop (fuel : nat) : M (option ptr) :=
  match fuel with
  | O => out_of_fuel
  | S fuel' =>
      r <- NextSibling ;;
      match r with
      | Ok _ => n <- get_node ;; ret (Some n)
      | Fail _ =>
          r' <- Parent ;;
          match r' with
          | Ok _ => nextSiblingAscending_loop fuel'
          | Fail _ => ret None
          end
      end
  end.

Definition nextSiblingAscending (fuel : nat) : M Result :=
  node0 <- get_node ;;
  level0 <- get_level ;;
  r <- nextSiblingAscending_loop fuel ;;
  match r with
  | Some n => ret (Ok n)
  | None =>
      set_node node0 ;;; set_level level0 ;;;
      ret (Fail ErrNoSuchRelative)
  end.

(** The loop of [prevSiblingDescending]: [LastChild] until it fails. *)
Fixpoint prevSiblingDescending_loop (fuel : nat) : M unit :=
  match fuel with
  | O => out_of_fuel
  | S fuel' =>
      r <- LastChild ;;
      match r with
      | Ok _ => prevSiblingDescending_loop fuel'
      | Fail _ => ret tt
      end
  end.

Definition prevSiblingDescending (fuel : nat) : M Result :=
  r <- PrevSibling ;;
  match r with
  | Fail _ => ret (Fail ErrNoSuchRelative)
  | Ok _ =>
      prevSiblingDescending_loop fuel ;;;
      n <- get_node ;; ret (Ok n)
  end.

(** ** Document-order stepping *)

Definition Next (fuel : nat) : M Result :=
  r <- FirstChild ;;
  match r with
  | Ok _ => n <- get_node ;; ret (Ok n)
  | Fail _ =>
      r' <- nextSiblingAscending fuel ;;
      match r' with
      | Ok _ => n <- get_node ;; ret (Ok n)
      | Fail _ => ret (Fail ErrEndOfDoc)
      end
  end.

Definition Prev (fuel : nat) : M Result :=
  r <- prevSiblingDescending fuel ;;
  match r with
  | Ok _ => n <- get_node ;; ret (Ok n)
  | Fail _ =>
      r' <- Parent ;;
      match r' with
      | Ok _ => n <- get_node ;; ret (Ok n)
      | Fail _ => ret (Fail ErrBegOfDoc)
      end
  end.

(** ** Filtered traversal *)

(** [for !isElem(p.node) { ... }]: the condition is tested before each
    round, a round costs one unit of [fuel]; [inner] is the fuel of the
    loops inside [Next] and [Prev]. *)
Fixpoint NextElement_loop (inner fuel : nat) : M Result :=
  n <- get_node ;; e <- isElem n ;;
  if e then n' <- get_node ;; ret (Ok n')
  else
    match fuel with
    | O => out_of_fuel
    | S fuel' =>
        r <- Next inner ;;
        match r with
        | Fail _ => ret (Fail ErrEndOfDoc)
        | Ok _ => NextElement_loop inner fuel'
        end
    end.

Definition NextElement (fuel : nat) : M Result := NextElement_loop fuel fuel.

Fixpoint PrevElement_loop (inner fuel : nat) : M Result :=
  n <- get_node ;; e <- isElem n ;;
  if e then n' <- get_node ;; ret (Ok n')
  else
    match fuel with
    | O => out_of_fuel
    | S fuel' =>
        r <- Prev inner ;;
        match r with
        | Fail _ => ret (Fail ErrBegOfDoc)
        | Ok _ => PrevElement_loop inner fuel'
        end
    end.

Definition PrevElement (fuel : nat) : M Result := PrevElement_loop fuel fuel.

(** [Reset] *)
Definition Reset : M ptr :=
  d <- get_doc ;; set_node d ;;; set_level 0%Z ;;; get_node.

(** [isElem(p.node) && p.node.DataAtom == a]; [&&] evaluates its right
    operand only when the left one holds. *)
Definition matches (a : Atom) : M bool :=
  n <- get_node ;; e <- isElem n ;;
  if e then n' <- get_node ;; nd <- load n' ;; ret (Z.eqb (html.DataAtom nd) a)
  else ret false.

(** The search loop shared by [FirstElementByAtom] and
    [NextElementByAtom]. *)
Fixpoint ElementByAtom_loop (a : Atom) (inner fuel : nat) : M Result :=
  m <- matches a ;;
  if m then n <- get_node ;; ret (Ok n)
  else
    match fuel with
    | O => out_of_fuel
    | S fuel' =>
        r <- Next inner ;;
        match r with
        | Fail e => ret (Fail e)
        | Ok _ => ElementByAtom_loop a inner fuel'
        end
    end.

Definition NextElementByAtom (a : Atom) (fuel : nat) : M Result :=
  r <- Next fuel ;;
  match r with
  | Fail e => ret (Fail e)
  | Ok _ => ElementByAtom_loop a fuel fuel
  end.

Definition FirstElementByAtom (a : Atom) (fuel : nat) : M Result :=
  Reset ;;;
  r <- Next fuel ;;
  match r with
  | Fail e => ret (Fail e)
  | Ok _ => ElementByAtom_loop a fuel fuel
  end.

(** The tag atoms of [golang.org/x/net/html/atom] the package names. *)
Variables atom_Body atom_Head atom_Meta : Atom.

Definition Body (fuel : nat) : M Result := FirstElementByAtom atom_Body fuel.
Definition Head (fuel : nat) : M Result := FirstElementByAtom atom_Head fuel.
Definition FirstMeta (fuel : nat) : M Result := FirstElementByAtom atom_Meta fuel.
Definition NextMeta (fuel : nat) : M Result := NextElementByAtom atom_Meta fuel.

End Methods.

(** ** Sequences of calls *)

(** The exported methods that move the receiver. *)
Inductive Op : Type :=
| OpNext | OpPrev | OpNextElement | OpPrevElement
| OpNextSibling | OpPrevSibling | OpParent | OpFirstChild | OpLastChild
| OpBody | OpHead | OpFirstMeta | OpNextMeta
| OpFirstElementByAtom (a : Atom) | OpNextElementByAtom (a : Atom)
| OpReset.

Section Run.

Variable h : Heap.
Variables atom_Body atom_Head atom_Meta : Atom.

Definition exec (o : Op) (fuel : nat) : M Result :=
  match o with
  | OpNext => Next h fuel
  | OpPrev => Prev h fuel
  | OpNextElement => NextElement h fuel
  | OpPrevElement => PrevElement h fuel
  | OpNextSibling => NextSibling h
  | OpPrevSibling => PrevSibling h
  | OpParent => Parent h
  | OpFirstChild => FirstChild h
  | OpLastChild => LastChild h
  | OpBody => Body h atom_Body fuel
  | OpHead => Head h atom_Head fuel
  | OpFirstMeta => FirstMeta h atom_Meta fuel
  | OpNextMeta => NextMeta h atom_Meta fuel
  | OpFirstElementByAtom a => FirstElementByAtom h a fuel
  | OpNextElementByAtom a => NextElementByAtom h a fuel
  | OpReset => n <- Reset ;; ret (Ok n)
  end.

(** The calls of [ops] one after the other, whatever they answer. *)
Fixpoint run (ops : list Op) (fuel : nat) : M unit :=
  match ops with
  | [] => ret tt
  | o :: ops' => exec o fuel ;;; run ops' fuel
  end.

End Run.

(** ** Finite trees and the heap that holds one *)

(** A parsed document: the kind and tag atom of a node and its children,
    left to right. *)
#[local] Unset Elimination Schemes.
Inductive tree : Type :=
| T (ty : html.NodeType) (a : Atom) (cs : list tree).
#[local] Set Elimination Schemes.

Definition kind (s : tree) : html.NodeType := match s with T ty _ _ => ty end.
Definition tag (s : tree) : Atom := match s with T _ a _ => a end.
Definition children (s : tree) : list tree := match s with T _ _ cs => cs end.

(** Induction on trees, with the hypothesis for every child. *)

Section TreeInd.

Variable P : tree -> Prop.
Hypothesis HT : forall ty a cs, Forall P cs -> P (T ty a cs).

Fixpoint tree_ind (s : tree) : P s :=
  match s with
  | T ty a cs =>
      HT ty a
        ((fix all (cs : list tree) : Forall P cs :=
            match cs with
            | [] => Forall_nil P
            | c :: cs' => Forall_cons c (tree_ind c) (all cs')
            end) cs)
  end.

End TreeInd.

Fixpoint size (s : tree) : nat :=
  match s with T _ _ cs => S (list_sum (map size cs)) end.

(** The node at an address: the head of the address is the index of the
    node among its siblings, the tail is the address of its parent; the
    root is at [[]]. *)
Fixpoint subtree_at (t : tree) (q : ptr) : option tree :=
  match q with
  | [] => Some t
  | i :: q' =>
      match subtree_at t q' with
      | Some s => nth_error (children s) i
      | None => None
      end
  end.

Definition is_node (t : tree) (q : ptr) : bool :=
  match subtree_at t q with Some _ => true | None => false end.

(** The heap after [html.Parse] has built the document [t], linked as the
    parser links it: the tree is acyclic, the siblings are a doubly linked
    list, the child links agree with the parent links, and the root has
    neither parent nor siblings ([heap_of_links] below). *)
Definition heap_of (t : tree) : Heap :=
  fun q =>
    match subtree_at t q with
    | None => None
    | Some s =>
        Some {| html.Parent := match q with [] => None | _ :: q' => Some q' end;
                html.FirstChild :=
                  match children s with [] => None | _ :: _ => Some (0 :: q) end;
                html.LastChild :=
                  match children s with
                  | [] => None
                  | _ :: cs' => Some (length cs' :: q)
                  end;
                html.PrevSibling :=
                  match q with S j :: q' => Some (j :: q') | _ => None end;
                html.NextSibling :=
                  match q with
                  | i :: q' => if is_node t (S i :: q') then Some (S i :: q') else None
                  | [] => None
                  end;
                html.Type_ := kind s;
                html.DataAtom := tag s |}
    end.

(** Document order: a node, then the nodes of its children's subtrees, left
    to right; [q] is the address of the root of [s]. *)
Fixpoint preorder_from (q : ptr) (s : tree) : list ptr :=
  match s with
  | T _ _ cs =>
      q :: (fix kids (i : nat) (cs : list tree) {struct cs} : list ptr :=
              match cs with
              | [] => []
              | c :: cs' => preorder_from (i :: q) c ++ kids (S i) cs'
              end) 0 cs
  end.

Fixpoint preorder_kids (q : ptr) (i : nat) (cs : list tree) : list ptr :=
  match cs with
  | [] => []
  | c :: cs' => preorder_from (i :: q) c ++ preorder_kids q (S i) cs'
  end.

Definition preorder (t : tree) : list ptr := preorder_from [] t.

(** The first ancestor-or-self of [q] that has a next sibling yields that
    sibling. *)
Fixpoint ascend_ptr (t : tree) (q : ptr) : option ptr :=
  match q with
  | [] => None
  | i :: q' => if is_node t (S i :: q') then Some (S i :: q') else ascend_ptr t q'
  end.

(** The successor in document order. *)
Definition next_ptr (t : tree) (q : ptr) : option ptr :=
  match subtree_at t q with
  | Some (T _ _ (_ :: _)) => Some (0 :: q)
  | _ => ascend_ptr t q
  end.

(** [last_chain t q z]: [z] is reached from [q] by last-child links and has
    no child: the deepest trailing descendant of [q]. *)
Inductive last_chain (t : tree) : ptr -> ptr -> Prop :=
| last_chain_leaf q ty a :
    subtree_at t q = Some (T ty a []) -> last_chain t q q
| last_chain_step q ty a c cs z :
    subtree_at t q = Some (T ty a (c :: cs)) ->
    last_chain t (length cs :: q) z -> last_chain t q z.

(** The receiver standing on [q] at the level of [q]. *)
Definition cursor (d q : ptr) : Parser :=
  mkParser d q (int_wrap (Z.of_nat (length q))).

(** The answers of [n] calls of a method in a row. *)
Fixpoint calls (step : M Result) (n : nat) (p : Parser) : list (Outcome Result) :=
  match n with
  | O => []
  | S n' =>
      step p ::
      match step p with
      | Done _ p' => calls step n' p'
      | _ => []
      end
  end.

(** The number of parent links from a node to the root. *)
Fixpoint depth_in (h : Heap) (fuel : nat) (q : ptr) : option nat :=
  match fuel with
  | O => None
  | S fuel' =>
      match h q with
      | None => None
      | Some nd =>
          match html.Parent nd with
          | None => Some O
          | Some q' => option_map S (depth_in h fuel' q')
          end
      end
  end.

(** [isElem(n) && n.DataAtom == a] on the node at [q]. *)
Definition is_elem_at (t : tree) (q : ptr) : bool :=
  match subtree_at t q with
  | Some s => html.NodeType_eqb (kind s) html.ElementNode
  | None => false
  end.

Definition is_match_at (t : tree) (a : Atom) (q : ptr) : bool :=
  match subtree_at t q with
  | Some s => html.NodeType_eqb (kind s) html.ElementNode && Z.eqb (tag s) a
  | None => false
  end.

(** The document of the package's tests:
    [<html><head></head><body><p>x</p></body></html>]. *)
Module Sample.
Definition a_html : Atom := 1%Z.
Definition a_head : Atom := 2%Z.
Definition a_body : Atom := 3%Z.
Definition a_p : Atom := 4%Z.
Definition a_meta : Atom := 5%Z.
Definition text : tree := T html.TextNode 0%Z [].
Definition para : tree := T html.ElementNode a_p [text].
Definition body : tree := T html.ElementNode a_body [para].
Definition head : tree := T html.ElementNode a_head [].
Definition root : tree :=
  T html.DocumentNode 0%Z [T html.ElementNode a_html [head; body]].
Definition hp : Heap := heap_of root.
(** The receiver on [<head>], on [<body>] and on the text of [<p>]. *)
Definition on_head : Parser := mkParser [] [0; 0] 2.
Definition on_body : Parser := mkParser [] [1; 0] 2.
Definition on_text : Parser := mkParser [] [0; 0; 1; 0] 4.
End Sample.

(** [<!DOCTYPE html><html><head></head><body></body></html><!--a--><!--b-->]:
    the doctype and the trailing comments are children of the document. *)
Module Trailing.
Definition doctype : tree := T html.DoctypeNode 0%Z [].
Definition comment : tree := T html.CommentNode 0%Z [].
Definition root : tree :=
  T html.DocumentNode 0%Z
    [doctype;
     T html.ElementNode Sample.a_html
       [T html.ElementNode Sample.a_head []; T html.ElementNode Sample.a_body []];
     comment; comment].
Definition hp : Heap := heap_of root.
End Trailing.

(** [<html><head><meta><meta></head><body></body></html>] *)
Module Metas.
Definition meta : tree := T html.ElementNode Sample.a_meta [].
Definition root : tree :=
  T html.DocumentNode 0%Z
    [T html.ElementNode Sample.a_html
       [T html.ElementNode Sample.a_head [meta; meta];
        T html.ElementNode Sample.a_body []]].
Definition hp : Heap := heap_of root.
End Metas.

(** [follows t a L e]: from [a], the successors in document order are the
    nodes of [L] one after the other, and the successor of the last one is
    [e]. *)
Fixpoint follows (t : tree) (a : ptr) (L : list ptr) (e : option ptr) : Prop :=
  match L with
  | [] => next_ptr t a = e
  | b :: L' => next_ptr t a = Some b /\ follows t b L' e
  end.

(** The answer of a call that moved the receiver to [q]. *)
Definition moved (d q : ptr) : Outcome Result := Done (Ok q) (cursor d q).

(** [linked step d L]: a call of [step] on each node of [L] moves to the
    next node of [L]. *)
Fixpoint linked (step : M Result) (d : ptr) (L : list ptr) : Prop :=
  match L with
  | a :: (b :: _) as L' => step (cursor d a) = moved d b /\ linked step d L'
  | _ => True
  end.

(** [last_child_chain h s z k]: [k] last-child links of the heap lead from
    [s] to [z], and [z] has no child. *)
Inductive last_child_chain (h : Heap) : ptr -> ptr -> nat -> Prop :=
| last_child_stop q nd :
    h q = Some nd -> html.LastChild nd = None -> last_child_chain h q q 0
| last_child_step q nd c z k :
    h q = Some nd -> html.LastChild nd = Some c ->
    last_child_chain h c z k -> last_child_chain h q z (S k).

(** The call returned and left the receiver on a node of [t], at the level
    of that node. *)
Definition on_node {A : Type} (t : tree) (o : Outcome A) : Prop :=
  exists a q, o = Done a (cursor [] q) /\ is_node t q = true.

(** The error a method answers when it fails; [Reset] has no error. *)
Definition error_of (o : Op) : option Error :=
  match o with
  | OpNext | OpNextElement => Some ErrEndOfDoc
  | OpPrev | OpPrevElement => Some ErrBegOfDoc
  | OpNextSibling | OpPrevSibling | OpParent | OpFirstChild | OpLastChild =>
      Some ErrNoSuchRelative
  | OpBody | OpHead | OpFirstMeta | OpNextMeta
  | OpFirstElementByAtom _ | OpNextElementByAtom _ => Some ErrEndOfDoc
  | OpReset => None
  end.

(** [keeps err m]: whenever [m] returns, the document of the receiver is the
    one it had, a node it answers is the node the receiver is on, and an
    error it answers is [err]. *)
Definition keeps (err : option Error) (m : M Result) : Prop :=
  forall p r p',
    m p = Done r p' ->
    doc p' = doc p /\
    match r with
    | Ok n => n = node p'
    | Fail e => err = Some e
    end.

(** * Lemmas *)

(** Runs the straight-line part of a method. *)
Ltac run_go :=
  unfold NextSibling, PrevSibling, Parent, FirstChild, LastChild, isElem,
    matches, Reset, bind, ret, get_node, get_doc, get_level, set_node,
    set_level, load, cursor; simpl.

(** ** Machine integers *)

Lemma int_wrap_id (z : Z) : in_int z -> int_wrap z = z.
Proof.
  unfold in_int, int_min, int_max, int_wrap. intros Hz.
  rewrite Z.mod_small; lia.
Qed.

Lemma int_wrap_in (z : Z) : in_int (int_wrap z).
Proof.
  unfold in_int, int_min, int_max, int_wrap.
  pose proof (Z.mod_pos_bound (z + 2 ^ 63) (2 ^ 64) ltac:(lia)). lia.
Qed.

Lemma int_wrap_add (a b : Z) : int_wrap (int_wrap a + b) = int_wrap (a + b).
Proof.
  unfold int_wrap. f_equal.
  replace ((a + 2 ^ 63) mod 2 ^ 64 - 2 ^ 63 + b + 2 ^ 63)%Z
    with ((a + 2 ^ 63) mod 2 ^ 64 + b)%Z by lia.
  rewrite Zplus_mod_idemp_l. f_equal. lia.
Qed.

Lemma int_wrap_sub (a b : Z) : int_wrap (int_wrap a - b) = int_wrap (a - b).
Proof. unfold Z.sub. apply int_wrap_add. Qed.

Lemma preorder_from_eq (q : ptr) ty a cs :
  preorder_from q (T ty a cs) = q :: preorder_kids q 0 cs.
Proof.
  simpl. f_equal. generalize 0. induction cs as [|c cs IH]; intros i; simpl.
  - reflexivity.
  - now rewrite IH.
Qed.

(** ** The methods on the heap of a tree *)

Section OnTree.

Variable t : tree.

Lemma is_node_true q : is_node t q = true <-> exists s, subtree_at t q = Some s.
Proof.
  unfold is_node. destruct (subtree_at t q) as [s|]; split; intros H.
  - now exists s.
  - reflexivity.
  - discriminate.
  - destruct H as [s H]. discriminate.
Qed.

Lemma is_node_parent i q : is_node t (i :: q) = true -> is_node t q = true.
Proof.
  unfold is_node. simpl. destruct (subtree_at t q); [reflexivity | discriminate].
Qed.

Lemma is_node_child i q s :
  subtree_at t q = Some s ->
  is_node t (i :: q) = true <-> i < length (children s).
Proof.
  intros H. unfold is_node. simpl. rewrite H.
  destruct (nth_error (children s) i) eqn:E.
  - split; [intros _ | reflexivity]. apply nth_error_Some. congruence.
  - split; [discriminate | intros Hi]. apply nth_error_None in E. lia.
Qed.

(** *** Primitive moves *)

Lemma FirstChild_tree d q l s :
  subtree_at t q = Some s ->
  FirstChild (heap_of t) (mkParser d q l) =
  match children s with
  | [] => Done (Fail ErrNoSuchRelative) (mkParser d q l)
  | _ :: _ => Done (Ok (0 :: q)) (mkParser d (0 :: q) (int_wrap (l + 1)))
  end.
Proof.
  intros H. run_go. unfold heap_of. rewrite H. simpl.
  destruct (children s); reflexivity.
Qed.

Lemma LastChild_tree d q l s :
  subtree_at t q = Some s ->
  LastChild (heap_of t) (mkParser d q l) =
  match children s with
  | [] => Done (Fail ErrNoSuchRelative) (mkParser d q l)
  | _ :: cs =>
      Done (Ok (length cs :: q)) (mkParser d (length cs :: q) (int_wrap (l + 1)))
  end.
Proof.
  intros H. run_go. unfold heap_of. rewrite H. simpl.
  destruct (children s); reflexivity.
Qed.

Lemma Parent_tree d q l :
  is_node t q = true ->
  Parent (heap_of t) (mkParser d q l) =
  match q with
  | [] => Done (Fail ErrNoSuchRelative) (mkParser d q l)
  | _ :: q' => Done (Ok q') (mkParser d q' (int_wrap (l - 1)))
  end.
Proof.
  intros H. apply is_node_true in H. destruct H as [s H].
  run_go. unfold heap_of. rewrite H. simpl.
  destruct q; reflexivity.
Qed.

Lemma PrevSibling_tree d q l :
  is_node t q = true ->
  PrevSibling (heap_of t) (mkParser d q l) =
  match q with
  | S j :: q' => Done (Ok (j :: q')) (mkParser d (j :: q') l)
  | _ => Done (Fail ErrNoSuchRelative) (mkParser d q l)
  end.
Proof.
  intros H. apply is_node_true in H. destruct H as [s H].
  run_go. unfold heap_of. rewrite H. simpl.
  destruct q as [|[|j] q']; reflexivity.
Qed.

Lemma NextSibling_tree d q l :
  is_node t q = true ->
  NextSibling (heap_of t) (mkParser d q l) =
  match q with
  | i :: q' =>
      if is_node t (S i :: q')
      then Done (Ok (S i :: q')) (mkParser d (S i :: q') l)
      else Done (Fail ErrNoSuchRelative) (mkParser d q l)
  | [] => Done (Fail ErrNoSuchRelative) (mkParser d q l)
  end.
Proof.
  intros H. apply is_node_true in H. destruct H as [s H].
  run_go. unfold heap_of at 1. rewrite H. simpl.
  destruct q as [|i q']; [reflexivity|].
  destruct (is_node t (S i :: q')); reflexivity.
Qed.

(** *** The ascending search *)

Lemma nextSiblingAscending_loop_tree d q :
  forall l fuel,
    is_node t q = true -> in_int l -> length q < fuel ->
    nextSiblingAscending_loop (heap_of t) fuel (mkParser d q l) =
    match ascend_ptr t q with
    | Some r =>
        Done (Some r)
          (mkParser d r (int_wrap (l + Z.of_nat (length r) - Z.of_nat (length q))))
    | None => Done None (mkParser d [] (int_wrap (l - Z.of_nat (length q))))
    end.
Proof.
  induction q as [|i q' IH]; intros l fuel Hq Hl Hf;
    (destruct fuel as [|fuel]; [simpl in Hf; lia|]).
  - cbn [nextSiblingAscending_loop]. unfold bind at 1.
    rewrite NextSibling_tree by assumption.
    unfold bind at 1. rewrite Parent_tree by assumption.
    cbn [ascend_ptr length Z.of_nat]. unfold ret.
    rewrite Z.sub_0_r, int_wrap_id; [reflexivity | assumption].
  - cbn [nextSiblingAscending_loop]. unfold bind at 1.
    rewrite NextSibling_tree by assumption.
    cbn [ascend_ptr].
    destruct (is_node t (S i :: q')) eqn:E.
    + run_go. rewrite Z.add_simpl_r, int_wrap_id; [reflexivity | assumption].
    + unfold bind at 1. rewrite Parent_tree by assumption.
      rewrite IH; [| now apply is_node_parent in Hq | apply int_wrap_in
                   | simpl in Hf; lia].
      destruct (ascend_ptr t q') as [r|]; do 2 f_equal.
      * rewrite <- Z.add_sub_assoc, int_wrap_add. f_equal.
        simpl length. lia.
      * rewrite int_wrap_sub. f_equal. simpl length. lia.
Qed.

Lemma nextSiblingAscending_tree d q l fuel :
  is_node t q = true -> in_int l -> length q < fuel ->
  nextSiblingAscending (heap_of t) fuel (mkParser d q l) =
  match ascend_ptr t q with
  | Some r =>
      Done (Ok r)
        (mkParser d r (int_wrap (l + Z.of_nat (length r) - Z.of_nat (length q))))
  | None => Done (Fail ErrNoSuchRelative) (mkParser d q l)
  end.
Proof.
  intros Hq Hl Hf. unfold nextSiblingAscending, bind at 1 2 3, get_node, get_level.
  cbn [node level].
  rewrite (nextSiblingAscending_loop_tree d q Hq Hl Hf).
  destruct (ascend_ptr t q); reflexivity.
Qed.

Lemma Next_tree d q l fuel :
  is_node t q = true -> in_int l -> length q < fuel ->
  Next (heap_of t) fuel (mkParser d q l) =
  match next_ptr t q with
  | Some r =>
      Done (Ok r)
        (mkParser d r (int_wrap (l + Z.of_nat (length r) - Z.of_nat (length q))))
  | None => Done (Fail ErrEndOfDoc) (mkParser d q l)
  end.
Proof.
  intros Hq Hl Hf. pose proof Hq as Hs. apply is_node_true in Hs.
  destruct Hs as [s Hs]. unfold Next, bind at 1.
  rewrite (FirstChild_tree d q l Hs). unfold next_ptr. rewrite Hs.
  destruct s as [ty a [|c cs]]; cbn [children].
  - unfold bind at 1. rewrite nextSiblingAscending_tree by assumption.
    destruct (ascend_ptr t q); reflexivity.
  - run_go. do 3 f_equal. lia.
Qed.

(** *** The descending search *)

Lemma last_chain_exists s :
  forall q, subtree_at t q = Some s -> exists z, last_chain t q z.
Proof.
  induction s as [ty a cs IH] using tree_ind. intros q Hq.
  destruct cs as [|c cs].
  - exists q. eapply last_chain_leaf; eauto.
  - destruct (nth_error (c :: cs) (length cs)) as [c'|] eqn:E.
    + rewrite Forall_forall in IH.
      destruct (IH c' (nth_error_In _ _ E) (length cs :: q)) as [z Hz].
      * simpl. rewrite Hq. exact E.
      * exists z. eapply last_chain_step; eauto.
    + apply nth_error_None in E. simpl in E. lia.
Qed.

Lemma last_chain_end q z :
  last_chain t q z ->
  (exists ty a, subtree_at t z = Some (T ty a [])) /\
  length q <= length z /\
  ascend_ptr t z = ascend_ptr t q.
Proof.
  induction 1 as [q ty a H | q ty a c cs z H Hc IH].
  - split; [eauto | split; [lia | reflexivity]].
  - destruct IH as (Hl & Hlen & Ha). split; [exact Hl|].
    split; [simpl in Hlen; lia|].
    rewrite Ha. cbn [ascend_ptr].
    destruct (is_node t (S (length cs) :: q)) eqn:E; [|reflexivity].
    apply (is_node_child (S (length cs)) q H) in E. simpl in E. lia.
Qed.

Lemma last_chain_fun q z :
  last_chain t q z -> forall z', last_chain t q z' -> z = z'.
Proof.
  induction 1 as [q ty a H | q ty a c cs z H Hc IH]; intros z' Hz'.
  - inversion Hz' as [q' ty' a' H' | q' ty' a' c' cs' z'' H' Hc']; subst.
    + reflexivity.
    + congruence.
  - inversion Hz' as [q' ty' a' H' | q' ty' a' c' cs' z'' H' Hc']; subst.
    + congruence.
    + apply IH. rewrite H in H'. injection H' as _ _ _ ->. exact Hc'.
Qed.

Lemma prevSiblingDescending_loop_tree d q z :
  last_chain t q z ->
  forall l fuel,
    in_int l -> length z - length q < fuel ->
    prevSiblingDescending_loop (heap_of t) fuel (mkParser d q l) =
    Done tt
      (mkParser d z (int_wrap (l + Z.of_nat (length z) - Z.of_nat (length q)))).
Proof.
  induction 1 as [q ty a H | q ty a c cs z H Hc IH]; intros l fuel Hl Hf;
    (destruct fuel as [|fuel]; [lia|]);
    cbn [prevSiblingDescending_loop]; unfold bind at 1;
    rewrite (LastChild_tree d q l H); cbn [children].
  - unfold ret. rewrite Z.add_simpl_r, int_wrap_id; [reflexivity | assumption].
  - apply last_chain_end in Hc as Hc'. destruct Hc' as (_ & Hlen & _).
    simpl in Hlen.
    rewrite IH; [| apply int_wrap_in | simpl; lia].
    do 2 f_equal.
    rewrite <- Z.add_sub_assoc, int_wrap_add. f_equal. simpl length. lia.
Qed.

(** *** Fuel: no address is deeper than the tree is large *)

Lemma size_child cs : forall i c,
  nth_error cs i = Some c -> size c <= list_sum (map size cs).
Proof.
  induction cs as [|c' cs IH]; intros [|i] c H; simpl in *; try discriminate.
  - injection H as ->. lia.
  - specialize (IH i c H). lia.
Qed.

Lemma subtree_size q : forall s,
  subtree_at t q = Some s -> length q + size s <= size t.
Proof.
  induction q as [|i q IH]; intros s H; simpl in H.
  - injection H as ->. simpl. lia.
  - destruct (subtree_at t q) as [[ty a cs]|]; [|discriminate].
    specialize (IH _ eq_refl). simpl in IH, H.
    apply size_child in H. simpl. lia.
Qed.

Lemma node_depth q : is_node t q = true -> length q < size t.
Proof.
  intros H. apply is_node_true in H. destruct H as [s H].
  apply subtree_size in H. destruct s. simpl in H. lia.
Qed.

(** *** [Prev] *)

Lemma Prev_tree d q l fuel :
  is_node t q = true -> in_int l -> size t <= fuel ->
  match q with
  | [] => Prev (heap_of t) fuel (mkParser d q l) = Done (Fail ErrBegOfDoc) (mkParser d q l)
  | 0 :: q' =>
      Prev (heap_of t) fuel (mkParser d q l) =
      Done (Ok q') (mkParser d q' (int_wrap (l - 1)))
  | S j :: q' =>
      exists z,
        last_chain t (j :: q') z /\
        Prev (heap_of t) fuel (mkParser d q l) =
        Done (Ok z)
          (mkParser d z (int_wrap (l + Z.of_nat (length z) - Z.of_nat (length q))))
  end.
Proof.
  intros Hq Hl Hf. destruct q as [|[|j] q'].
  - unfold Prev, prevSiblingDescending, bind at 1 2.
    rewrite PrevSibling_tree by assumption.
    unfold ret, bind at 1. now rewrite Parent_tree by assumption.
  - unfold Prev, prevSiblingDescending, bind at 1 2.
    rewrite PrevSibling_tree by assumption.
    unfold ret, bind at 1. now rewrite Parent_tree by assumption.
  - assert (Hj : is_node t (j :: q') = true).
    { pose proof Hq as Hp. apply is_node_parent, is_node_true in Hp.
      destruct Hp as [s Hs].
      apply (is_node_child (S j) q' Hs) in Hq.
      apply (is_node_child j q' Hs). lia. }
    pose proof Hj as Hs. apply is_node_true in Hs. destruct Hs as [s Hs].
    destruct (last_chain_exists _ Hs) as [z Hz]. exists z. split; [exact Hz|].
    apply last_chain_end in Hz as Hz'. destruct Hz' as ((ty & a & Hzl) & Hlen & _).
    assert (Hzn : length z < size t).
    { apply node_depth, is_node_true. eauto. }
    unfold Prev, prevSiblingDescending, bind at 1 2.
    rewrite PrevSibling_tree by assumption.
    unfold bind at 1.
    rewrite (prevSiblingDescending_loop_tree d Hz Hl) by lia.
    reflexivity.
Qed.

(** *** [Next] and [Prev] undo each other *)

Lemma int_wrap_round (l u v : Z) :
  in_int l -> (u + v = 0)%Z -> int_wrap (int_wrap (l + u) + v) = l.
Proof.
  intros Hl E. rewrite int_wrap_add.
  replace (l + u + v)%Z with l by lia. now apply int_wrap_id.
Qed.

Lemma last_child_index q ty a cs k :
  subtree_at t q = Some (T ty a cs) ->
  is_node t (k :: q) = true -> is_node t (S k :: q) = false ->
  exists c cs', cs = c :: cs' /\ length cs' = k.
Proof.
  intros H H1 H2. apply (is_node_child k q H) in H1. simpl in H1.
  assert (H3 : ~ S k < length cs).
  { intros H3. apply (is_node_child (S k) q H) in H3. congruence. }
  destruct cs as [|c cs']; simpl in *; [lia|].
  exists c, cs'. split; [reflexivity | lia].
Qed.

Lemma ascend_last_chain a : forall z r,
  is_node t a = true -> last_chain t a z -> ascend_ptr t a = Some r ->
  exists j q', r = S j :: q' /\ is_node t r = true /\ last_chain t (j :: q') z.
Proof.
  induction a as [|k a' IH]; intros z r Ha Hz Hr; cbn [ascend_ptr] in Hr.
  - discriminate.
  - destruct (is_node t (S k :: a')) eqn:E.
    + injection Hr as <-. exists k, a'. auto.
    + pose proof Ha as Hp. apply is_node_parent in Hp.
      pose proof Hp as Hs. apply is_node_true in Hs.
      destruct Hs as [[ty b cs] Hs].
      destruct (last_child_index a' k Hs Ha E) as (c & cs' & -> & <-).
      apply (IH z r Hp); [|exact Hr].
      eapply last_chain_step; eauto.
Qed.

Lemma next_ptr_shape q r :
  is_node t q = true -> next_ptr t q = Some r ->
  is_node t r = true /\
  (r = 0 :: q \/ exists j q', r = S j :: q' /\ last_chain t (j :: q') q).
Proof.
  intros Hq Hr. pose proof Hq as Hs. apply is_node_true in Hs.
  destruct Hs as [[ty a cs] Hs]. unfold next_ptr in Hr. rewrite Hs in Hr.
  destruct cs as [|c cs].
  - destruct (@ascend_last_chain q q r Hq) as (j & q' & -> & Hn & Hc); auto.
    + eapply last_chain_leaf; eauto.
    + split; [exact Hn|]. right. eauto.
  - injection Hr as <-. split; [|now left].
    apply (is_node_child 0 q Hs). simpl. lia.
Qed.

Lemma Next_then_Prev d q l fuel r p' :
  is_node t q = true -> in_int l -> size t <= fuel ->
  Next (heap_of t) fuel (mkParser d q l) = Done (Ok r) p' ->
  Prev (heap_of t) fuel p' = Done (Ok q) (mkParser d q l).
Proof.
  intros Hq Hl Hf HN. pose proof (node_depth q Hq) as Hd.
  rewrite Next_tree in HN by (assumption || lia).
  destruct (next_ptr t q) as [r'|] eqn:En; [|discriminate].
  injection HN as -> <-.
  destruct (next_ptr_shape q Hq En) as (Hr & [-> | (j & q' & -> & Hc)]).
  - pose proof (Prev_tree d (0 :: q) Hr
      (int_wrap_in (l + Z.of_nat (length (0 :: q)) - Z.of_nat (length q)))
      Hf) as HP.
    cbv beta iota in HP. rewrite HP. do 2 f_equal.
    rewrite <- Z.add_sub_assoc. apply int_wrap_round; [assumption|].
    simpl length. lia.
  - destruct (Prev_tree d (S j :: q') Hr
      (int_wrap_in (l + Z.of_nat (length (S j :: q')) - Z.of_nat (length q)))
      Hf) as (z & Hz & HP).
    rewrite (last_chain_fun Hz Hc) in HP. rewrite HP. do 2 f_equal.
    rewrite <- !Z.add_sub_assoc. apply int_wrap_round; [assumption|]. lia.
Qed.

Lemma Prev_then_Next d q l fuel r p' :
  is_node t q = true -> in_int l -> size t <= fuel ->
  Prev (heap_of t) fuel (mkParser d q l) = Done (Ok r) p' ->
  Next (heap_of t) fuel p' = Done (Ok q) (mkParser d q l).
Proof.
  intros Hq Hl Hf HP. pose proof (Prev_tree d q Hq Hl Hf) as HT.
  destruct q as [|[|j] q'].
  - congruence.
  - rewrite HT in HP. injection HP as -> <-.
    pose proof Hq as Hp. apply is_node_parent in Hp.
    rewrite Next_tree;
      [| assumption | apply int_wrap_in | apply node_depth in Hp; lia].
    pose proof Hp as Hs. apply is_node_true in Hs. destruct Hs as [[ty a cs] Hs].
    apply (is_node_child 0 r Hs) in Hq. unfold next_ptr. rewrite Hs.
    destruct cs as [|c cs]; [simpl in Hq; lia|]. do 2 f_equal.
    unfold Z.sub at 2. rewrite <- Z.add_sub_assoc.
    apply int_wrap_round; [assumption|]. simpl length. lia.
  - destruct HT as (z & Hz & HT). rewrite HT in HP. injection HP as -> <-.
    destruct (last_chain_end Hz) as ((ty & a & Hzl) & Hlen & Ha).
    assert (Hzn : is_node t r = true) by (apply is_node_true; eauto).
    rewrite Next_tree;
      [| assumption | apply int_wrap_in | apply node_depth in Hzn; lia].
    unfold next_ptr. rewrite Hzl, Ha. cbn [ascend_ptr]. rewrite Hq.
    do 2 f_equal. rewrite <- !Z.add_sub_assoc.
    apply int_wrap_round; [assumption|].
    rewrite ?Zpos_P_of_succ_nat. simpl length. lia.
Qed.

(** *** Document order *)

Lemma follows_app a L1 b L2 e :
  follows t a L1 (Some b) -> follows t b L2 e -> follows t a (L1 ++ b :: L2) e.
Proof.
  revert a. induction L1 as [|x L1 IH]; intros a H1 H2; simpl in *.
  - auto.
  - destruct H1 as [H1 H1']. auto.
Qed.

Lemma preorder_from_cons q s : preorder_from q s = q :: tl (preorder_from q s).
Proof. destruct s. reflexivity. Qed.

Lemma preorder_kids_follows q cs :
  Forall (fun c => forall q', subtree_at t q' = Some c ->
                   follows t q' (tl (preorder_from q' c)) (ascend_ptr t q')) cs ->
  forall i,
    (forall j c, nth_error cs j = Some c -> subtree_at t ((i + j) :: q) = Some c) ->
    cs <> [] ->
    exists L,
      preorder_kids q i cs = (i :: q) :: L /\
      follows t (i :: q) L (ascend_ptr t ((i + length cs - 1) :: q)).
Proof.
  induction 1 as [|c cs Hc Hcs IH]; intros i Hn Hne; [congruence|].
  pose proof (Hn 0 c eq_refl) as H0. rewrite Nat.add_0_r in H0.
  specialize (Hc _ H0). cbn [preorder_kids].
  rewrite (preorder_from_cons (i :: q) c).
  destruct cs as [|c' cs].
  - exists (tl (preorder_from (i :: q) c)). cbn [preorder_kids].
    rewrite app_nil_r. split; [reflexivity|].
    simpl length. now replace (i + 1 - 1) with i by lia.
  - destruct (IH (S i)) as (L & EL & HL).
    + intros j c0 Hj. replace (S i + j) with (i + S j) by lia. now apply Hn.
    + discriminate.
    + exists (tl (preorder_from (i :: q) c) ++ (S i :: q) :: L).
      rewrite EL. split; [reflexivity|].
      replace (i + length (c :: c' :: cs) - 1)
        with (S i + length (c' :: cs) - 1) by (simpl; lia).
      apply follows_app; [|exact HL].
      assert (E : ascend_ptr t (i :: q) = Some (S i :: q)).
      { cbn [ascend_ptr].
        assert (Hs : is_node t (S i :: q) = true).
        { apply is_node_true. exists c'.
          replace (S i) with (i + 1) by lia. now apply Hn. }
        now rewrite Hs. }
      rewrite E in Hc. exact Hc.
Qed.

Lemma preorder_from_follows s :
  forall q, subtree_at t q = Some s ->
  follows t q (tl (preorder_from q s)) (ascend_ptr t q).
Proof.
  induction s as [ty a cs IH] using tree_ind. intros q Hq.
  rewrite preorder_from_eq. cbn [tl]. destruct cs as [|c cs].
  - simpl. unfold next_ptr. now rewrite Hq.
  - destruct (@preorder_kids_follows q (c :: cs) IH 0) as (L & EL & HL).
    + intros j c0 Hj. simpl. now rewrite Hq.
    + discriminate.
    + rewrite EL. simpl. split.
      * unfold next_ptr. now rewrite Hq.
      * simpl in HL. rewrite Nat.sub_0_r in HL.
        replace (ascend_ptr t q) with (ascend_ptr t (length cs :: q)); [exact HL|].
        cbn [ascend_ptr].
        destruct (is_node t (S (length cs) :: q)) eqn:E; [|reflexivity].
        apply (is_node_child (S (length cs)) q Hq) in E. simpl in E. lia.
Qed.

(** *** The heap of a tree is linked as the parser links it *)

Lemma heap_of_links q nd :
  heap_of t q = Some nd ->
  (html.Parent nd = None <-> q = []) /\
  (forall c, html.FirstChild nd = Some c ->
     exists cd, heap_of t c = Some cd /\
                html.Parent cd = Some q /\ html.PrevSibling cd = None) /\
  (forall c, html.LastChild nd = Some c ->
     exists cd, heap_of t c = Some cd /\
                html.Parent cd = Some q /\ html.NextSibling cd = None) /\
  (forall s, html.NextSibling nd = Some s ->
     exists sd, heap_of t s = Some sd /\
                html.Parent sd = html.Parent nd /\ html.PrevSibling sd = Some q) /\
  (forall s, html.PrevSibling nd = Some s ->
     exists sd, heap_of t s = Some sd /\
                html.Parent sd = html.Parent nd /\ html.NextSibling sd = Some q).
Proof.
  intros H.
  assert (Hq : is_node t q = true).
  { unfold heap_of in H. unfold is_node.
    destruct (subtree_at t q); [reflexivity | discriminate]. }
  pose proof Hq as Hs. apply is_node_true in Hs. destruct Hs as [s Hs].
  unfold heap_of in H. rewrite Hs in H. injection H as <-.
  cbn [html.Parent html.FirstChild html.LastChild html.NextSibling
       html.PrevSibling].
  split; [|split; [|split; [|split]]].
  - destruct q; split; congruence.
  - intros c Hc. destruct (children s) as [|c0 cs] eqn:E; [discriminate|].
    injection Hc as <-. unfold heap_of. simpl. rewrite Hs, E. simpl. eauto.
  - intros c Hc. destruct (children s) as [|c0 cs] eqn:E; [discriminate|].
    injection Hc as <-.
    assert (H1 : is_node t (length cs :: q) = true).
    { apply (is_node_child (length cs) q Hs). rewrite E. simpl. lia. }
    assert (H2 : is_node t (S (length cs) :: q) = false).
    { destruct (is_node t (S (length cs) :: q)) eqn:E2; [|reflexivity].
      apply (is_node_child (S (length cs)) q Hs) in E2.
      rewrite E in E2. simpl in E2. lia. }
    apply is_node_true in H1. destruct H1 as [c H1].
    unfold heap_of. rewrite H1. cbn [html.Parent html.NextSibling].
    rewrite H2. eauto.
  - intros x Hx. destruct q as [|i q']; [discriminate|].
    destruct (is_node t (S i :: q')) eqn:E; [|discriminate].
    injection Hx as <-. apply is_node_true in E. destruct E as [c E].
    unfold heap_of. rewrite E. cbn [html.Parent html.PrevSibling]. eauto.
  - intros x Hx. destruct q as [|[|j] q']; try discriminate.
    injection Hx as <-.
    assert (H1 : is_node t (j :: q') = true).
    { pose proof Hq as Hp. apply is_node_parent, is_node_true in Hp.
      destruct Hp as [s' Hs'].
      apply (is_node_child (S j) q' Hs') in Hq.
      apply (is_node_child j q' Hs'). lia. }
    apply is_node_true in H1. destruct H1 as [c H1].
    unfold heap_of. rewrite H1. cbn [html.Parent html.NextSibling].
    rewrite Hq. eauto.
Qed.

End OnTree.

(** ** Every node once *)

Lemma subtree_at_app (s : tree) (r q : ptr) :
  subtree_at s (r ++ q) =
  match subtree_at s q with Some s' => subtree_at s' r | None => None end.
Proof.
  induction r as [|i r IH]; simpl.
  - destruct (subtree_at s q); reflexivity.
  - rewrite IH. destruct (subtree_at s q); reflexivity.
Qed.

Lemma child_address ty a cs (r : ptr) (j : nat) :
  is_node (T ty a cs) (r ++ [j]) = true <->
  exists c, nth_error cs j = Some c /\ is_node c r = true.
Proof.
  unfold is_node. rewrite subtree_at_app. simpl.
  destruct (nth_error cs j) as [c|]; split.
  - intros H. now exists c.
  - intros (c' & E & H). now injection E as <-.
  - discriminate.
  - intros (c' & E & _). discriminate.
Qed.

Lemma preorder_kids_In q cs :
  Forall (fun c => forall q' x, In x (preorder_from q' c) <->
                   exists r, x = r ++ q' /\ is_node c r = true) cs ->
  forall i x,
    In x (preorder_kids q i cs) <->
    exists j c r, nth_error cs j = Some c /\ x = r ++ (i + j) :: q /\
                  is_node c r = true.
Proof.
  induction 1 as [|c cs Hc Hcs IH]; intros i x; cbn [preorder_kids].
  - split; [intros [] | intros ([|j] & c & r & E & _); discriminate].
  - rewrite in_app_iff, Hc, IH. split.
    + intros [(r & -> & Hr) | (j & c' & r & E & -> & Hr)].
      * exists 0, c, r. rewrite Nat.add_0_r. auto.
      * exists (S j), c', r. replace (i + S j) with (S i + j) by lia. auto.
    + intros ([|j] & c' & r & E & -> & Hr).
      * left. injection E as <-. exists r. rewrite Nat.add_0_r. auto.
      * right. exists j, c', r. replace (S i + j) with (i + S j) by lia. auto.
Qed.

Lemma preorder_from_In s :
  forall q x, In x (preorder_from q s) <->
              exists r, x = r ++ q /\ is_node s r = true.
Proof.
  induction s as [ty a cs IH] using tree_ind. intros q x.
  rewrite preorder_from_eq. cbn [In]. rewrite (preorder_kids_In q IH). split.
  - intros [<- | (j & c & r & E & -> & Hr)].
    + now exists [].
    + exists (r ++ [j]). split; [now rewrite <- app_assoc|].
      apply child_address. eauto.
  - intros (r & -> & Hr). destruct r as [|k r] using rev_ind; [now left|].
    right. apply child_address in Hr. destruct Hr as (c & E & Hr).
    exists k, c, r. rewrite <- app_assoc. auto.
Qed.

Lemma preorder_In (t : tree) (q : ptr) :
  In q (preorder t) <-> is_node t q = true.
Proof.
  unfold preorder. rewrite preorder_from_In. split.
  - intros (r & -> & Hr). now rewrite app_nil_r.
  - intros H. exists q. now rewrite app_nil_r.
Qed.

Lemma suffix_index (r r' q : ptr) (i k : nat) :
  r ++ i :: q = r' ++ k :: q -> i = k.
Proof.
  intros E.
  change (r ++ [i] ++ q = r' ++ [k] ++ q) in E. rewrite !app_assoc in E.
  apply app_inv_tail in E. now apply app_inj_tail in E.
Qed.

Lemma preorder_kids_NoDup q cs :
  Forall (fun c => forall q', NoDup (preorder_from q' c)) cs ->
  forall i, NoDup (preorder_kids q i cs).
Proof.
  induction 1 as [|c cs Hc Hcs IH]; intros i; cbn [preorder_kids].
  - constructor.
  - apply NoDup_app; [apply Hc | apply IH |].
    intros x H1 H2. apply preorder_from_In in H1. destruct H1 as (r & -> & _).
    assert (HF : Forall (fun c => forall q' x, In x (preorder_from q' c) <->
                   exists r, x = r ++ q' /\ is_node c r = true) cs).
    { apply Forall_forall. intros c' _. apply preorder_from_In. }
    apply (preorder_kids_In q HF) in H2. destruct H2 as (j & c' & r' & _ & E & _).
    apply suffix_index in E. lia.
Qed.

Lemma preorder_from_NoDup s : forall q, NoDup (preorder_from q s).
Proof.
  induction s as [ty a cs IH] using tree_ind. intros q.
  rewrite preorder_from_eq. constructor; [|now apply preorder_kids_NoDup].
  intros H.
  assert (HF : Forall (fun c => forall q' x, In x (preorder_from q' c) <->
                 exists r, x = r ++ q' /\ is_node c r = true) cs).
  { apply Forall_forall. intros c' _. apply preorder_from_In. }
  apply (preorder_kids_In q HF) in H. destruct H as (j & c & r & _ & E & _).
  apply (f_equal (@length nat)) in E. rewrite length_app in E. simpl in E. lia.
Qed.

Lemma preorder_kids_length q cs :
  Forall (fun c => forall q', length (preorder_from q' c) = size c) cs ->
  forall i, length (preorder_kids q i cs) = list_sum (map size cs).
Proof.
  induction 1 as [|c cs Hc Hcs IH]; intros i; cbn [preorder_kids].
  - reflexivity.
  - rewrite length_app, Hc, IH. reflexivity.
Qed.

Lemma preorder_from_length s : forall q, length (preorder_from q s) = size s.
Proof.
  induction s as [ty a cs IH] using tree_ind. intros q.
  rewrite preorder_from_eq. simpl. f_equal. now apply preorder_kids_length.
Qed.

(** ** Walking a list of nodes *)

Section Walk.

Variable step : M Result.
Variable d : ptr.

Lemma linked_app_r L1 : forall L2, linked step d (L1 ++ L2) -> linked step d L2.
Proof.
  induction L1 as [|a L1 IH]; intros L2 H; [exact H|].
  apply IH. destruct L1 as [|b L1].
  - destruct L2; [exact I | apply H].
  - apply H.
Qed.

Lemma linked_app L1 x L2 :
  linked step d (L1 ++ [x]) -> linked step d (x :: L2) ->
  linked step d (L1 ++ x :: L2).
Proof.
  induction L1 as [|a L1 IH]; intros H1 H2; [exact H2|].
  destruct L1 as [|b L1].
  - destruct H1 as [H1 _]. split; assumption.
  - destruct H1 as [H1 H1']. split; [exact H1|]. exact (IH H1' H2).
Qed.

Lemma last_cons (a : ptr) (L : list ptr) (x : ptr) : last (a :: L) x = last L a.
Proof.
  revert a x. induction L as [|b L IH]; intros a x; [reflexivity|].
  change (last (a :: b :: L) x) with (last (b :: L) x).
  rewrite (IH b x), (IH b a). reflexivity.
Qed.

Lemma calls_linked (e : Error) L : forall a,
  linked step d (a :: L) ->
  step (cursor d (last L a)) = Done (Fail e) (cursor d (last L a)) ->
  calls step (S (length L)) (cursor d a) =
  map (moved d) L ++ [Done (Fail e) (cursor d (last L a))].
Proof.
  induction L as [|b L IH]; intros a HL He.
  - simpl in *. now rewrite He.
  - destruct HL as [H1 H2]. rewrite last_cons in He.
    change (calls step (S (length (b :: L))) (cursor d a))
      with (step (cursor d a) ::
            match step (cursor d a) with
            | Done _ p' => calls step (S (length L)) p'
            | _ => []
            end).
    rewrite H1. unfold moved at 2. rewrite (IH b H2 He).
    rewrite last_cons. reflexivity.
Qed.

End Walk.

Lemma linked_rev (fwd bwd : M Result) (d : ptr) (L : list ptr) :
  (forall a b, In a L -> fwd (cursor d a) = moved d b ->
               bwd (cursor d b) = moved d a) ->
  linked fwd d L -> linked bwd d (rev L).
Proof.
  induction L as [|a L IH]; intros Hinv HL; [exact I|].
  destruct L as [|b L]; [exact I|]. destruct HL as [H1 H2].
  change (rev (a :: b :: L)) with ((rev L ++ [b]) ++ [a]).
  rewrite <- app_assoc. apply linked_app.
  - apply IH; [|exact H2]. intros x y Hx. apply Hinv. now right.
  - split; [|exact I]. apply Hinv; [now left | exact H1].
Qed.

(** ** Document-order stepping on the heap of a tree *)

Section Stepping.

Variable t : tree.
Variable d : ptr.
Variable fuel : nat.
Hypothesis Hfuel : size t <= fuel.

Lemma Next_cursor q :
  is_node t q = true ->
  Next (heap_of t) fuel (cursor d q) =
  match next_ptr t q with
  | Some r => moved d r
  | None => Done (Fail ErrEndOfDoc) (cursor d q)
  end.
Proof.
  intros Hq. unfold cursor at 1.
  rewrite Next_tree;
    [| assumption | apply int_wrap_in | apply node_depth in Hq; lia].
  destruct (next_ptr t q) as [r|]; [|reflexivity].
  unfold moved, cursor. do 2 f_equal.
  rewrite <- Z.add_sub_assoc, int_wrap_add. f_equal. lia.
Qed.

Lemma Next_Prev_cursor a b :
  is_node t a = true ->
  Next (heap_of t) fuel (cursor d a) = moved d b ->
  Prev (heap_of t) fuel (cursor d b) = moved d a.
Proof.
  intros Ha H. unfold moved, cursor in *.
  eapply Next_then_Prev; [exact Ha | apply int_wrap_in | exact Hfuel | exact H].
Qed.

Lemma follows_linked L : forall a e,
  is_node t a = true -> follows t a L e ->
  linked (Next (heap_of t) fuel) d (a :: L) /\
  Forall (fun q => is_node t q = true) (a :: L) /\
  next_ptr t (last L a) = e.
Proof.
  induction L as [|b L IH]; intros a e Ha H.
  - simpl in *. auto.
  - destruct H as [H1 H2].
    destruct (next_ptr_shape t a Ha H1) as [Hb _].
    destruct (IH b e Hb H2) as (HL & HF & He).
    split; [|split].
    + split; [|exact HL]. rewrite Next_cursor by assumption. now rewrite H1.
    + constructor; assumption.
    + rewrite last_cons. exact He.
Qed.

Lemma preorder_walk :
  linked (Next (heap_of t) fuel) d (preorder t) /\
  Forall (fun q => is_node t q = true) (preorder t) /\
  next_ptr t (last (preorder t) []) = None.
Proof.
  unfold preorder. rewrite (preorder_from_cons [] t).
  rewrite last_cons.
  apply (@follows_linked (tl (preorder_from [] t)) [] None); [reflexivity|].
  exact (preorder_from_follows t [] eq_refl).
Qed.

End Stepping.

(** ** Filtered traversal on the heap of a tree *)

Section Filtered.

Variable t : tree.
Variable d : ptr.
Variable inner : nat.

Lemma isElem_tree q p :
  is_node t q = true ->
  isElem (heap_of t) q p = Done (is_elem_at t q) p.
Proof.
  intros H. apply is_node_true in H. destruct H as [s H].
  unfold isElem, bind, load, ret, heap_of, is_elem_at. now rewrite H.
Qed.

Lemma matches_tree a p :
  is_node t (node p) = true ->
  matches (heap_of t) a p = Done (is_match_at t a (node p)) p.
Proof.
  intros H. unfold matches, bind at 1 2, get_node.
  rewrite isElem_tree by assumption.
  apply is_node_true in H. destruct H as [s H].
  unfold is_elem_at, is_match_at. rewrite H.
  destruct (html.NodeType_eqb (kind s) html.ElementNode); [|reflexivity].
  run_go. unfold heap_of. now rewrite H.
Qed.

Lemma NextElement_loop_linked L : forall a,
  linked (Next (heap_of t) inner) d (a :: L) ->
  Forall (fun q => is_node t q = true) (a :: L) ->
  Next (heap_of t) inner (cursor d (last L a)) =
    Done (Fail ErrEndOfDoc) (cursor d (last L a)) ->
  forall fuel, length L < fuel ->
  NextElement_loop (heap_of t) inner fuel (cursor d a) =
  match find (is_elem_at t) (a :: L) with
  | Some r => moved d r
  | None => Done (Fail ErrEndOfDoc) (cursor d (last L a))
  end.
Proof.
  induction L as [|b L IH]; intros a HL HF He fuel Hf;
    (destruct fuel as [|fuel]; [simpl in Hf; lia|]);
    inversion HF as [|? ? Ha HF']; subst;
    cbn [NextElement_loop find]; unfold bind at 1 2, get_node at 1;
    cbn [node cursor]; rewrite isElem_tree by assumption;
    destruct (is_elem_at t a); try reflexivity; unfold bind at 1.
  - simpl in He. now rewrite He.
  - destruct HL as [H1 H2]. rewrite H1. unfold moved.
    rewrite last_cons in He. rewrite last_cons.
    apply IH; [assumption.. | simpl in Hf; lia].
Qed.

Lemma PrevElement_loop_linked L : forall a,
  linked (Prev (heap_of t) inner) d (a :: L) ->
  Forall (fun q => is_node t q = true) (a :: L) ->
  Prev (heap_of t) inner (cursor d (last L a)) =
    Done (Fail ErrBegOfDoc) (cursor d (last L a)) ->
  forall fuel, length L < fuel ->
  PrevElement_loop (heap_of t) inner fuel (cursor d a) =
  match find (is_elem_at t) (a :: L) with
  | Some r => moved d r
  | None => Done (Fail ErrBegOfDoc) (cursor d (last L a))
  end.
Proof.
  induction L as [|b L IH]; intros a HL HF He fuel Hf;
    (destruct fuel as [|fuel]; [simpl in Hf; lia|]);
    inversion HF as [|? ? Ha HF']; subst;
    cbn [PrevElement_loop find]; unfold bind at 1 2, get_node at 1;
    cbn [node cursor]; rewrite isElem_tree by assumption;
    destruct (is_elem_at t a); try reflexivity; unfold bind at 1.
  - simpl in He. now rewrite He.
  - destruct HL as [H1 H2]. rewrite H1. unfold moved.
    rewrite last_cons in He. rewrite last_cons.
    apply IH; [assumption.. | simpl in Hf; lia].
Qed.

Lemma ElementByAtom_loop_linked atm L : forall a,
  linked (Next (heap_of t) inner) d (a :: L) ->
  Forall (fun q => is_node t q = true) (a :: L) ->
  Next (heap_of t) inner (cursor d (last L a)) =
    Done (Fail ErrEndOfDoc) (cursor d (last L a)) ->
  forall fuel, length L < fuel ->
  ElementByAtom_loop (heap_of t) atm inner fuel (cursor d a) =
  match find (is_match_at t atm) (a :: L) with
  | Some r => moved d r
  | None => Done (Fail ErrEndOfDoc) (cursor d (last L a))
  end.
Proof.
  induction L as [|b L IH]; intros a HL HF He fuel Hf;
    (destruct fuel as [|fuel]; [simpl in Hf; lia|]);
    inversion HF as [|? ? Ha HF']; subst;
    cbn [ElementByAtom_loop find]; unfold bind at 1;
    rewrite matches_tree by assumption; cbn [node cursor];
    destruct (is_match_at t atm a); try reflexivity; unfold bind at 1.
  - simpl in He. now rewrite He.
  - destruct HL as [H1 H2]. rewrite H1. unfold moved.
    rewrite last_cons in He. rewrite last_cons.
    apply IH; [assumption.. | simpl in Hf; lia].
Qed.

End Filtered.

(** ** Any heap: primitive moves and roll-back *)

Section AnyHeap.

Variable h : Heap.

Lemma moves_spec p nd :
  h (node p) = Some nd ->
  Parent h p =
    match html.Parent nd with
    | None => Done (Fail ErrNoSuchRelative) p
    | Some s => Done (Ok s) (mkParser (doc p) s (int_wrap (level p - 1)))
    end /\
  FirstChild h p =
    match html.FirstChild nd with
    | None => Done (Fail ErrNoSuchRelative) p
    | Some s => Done (Ok s) (mkParser (doc p) s (int_wrap (level p + 1)))
    end /\
  LastChild h p =
    match html.LastChild nd with
    | None => Done (Fail ErrNoSuchRelative) p
    | Some s => Done (Ok s) (mkParser (doc p) s (int_wrap (level p + 1)))
    end /\
  NextSibling h p =
    match html.NextSibling nd with
    | None => Done (Fail ErrNoSuchRelative) p
    | Some s => Done (Ok s) (mkParser (doc p) s (level p))
    end /\
  PrevSibling h p =
    match html.PrevSibling nd with
    | None => Done (Fail ErrNoSuchRelative) p
    | Some s => Done (Ok s) (mkParser (doc p) s (level p))
    end.
Proof.
  intros H. destruct p as [d n l]. simpl in H. run_go. rewrite H.
  destruct nd as [pa fc lc ps ns ty a]. simpl.
  destruct pa, fc, lc, ps, ns; repeat split; reflexivity.
Qed.

Lemma moves_panic p :
  h (node p) = None ->
  Parent h p = Panic /\ FirstChild h p = Panic /\ NextSibling h p = Panic.
Proof.
  intros H. destruct p as [d n l]. simpl in H. run_go. rewrite H. auto.
Qed.

Lemma nextSiblingAscending_loop_doc fuel : forall p r p',
  nextSiblingAscending_loop h fuel p = Done r p' -> doc p' = doc p.
Proof.
  induction fuel as [|fuel IH]; intros p r p' H; [discriminate|].
  cbn [nextSiblingAscending_loop] in H. unfold bind at 1 in H.
  destruct (h (node p)) as [nd|] eqn:E.
  - destruct (moves_spec p E) as (HP & _ & _ & HN & _). rewrite HN in H.
    destruct (html.NextSibling nd) as [s|].
    + injection H as _ <-. reflexivity.
    + unfold bind at 1 in H. rewrite HP in H.
      destruct (html.Parent nd) as [s|].
      * apply IH in H. exact H.
      * injection H as _ <-. reflexivity.
  - destruct (moves_panic p E) as (_ & _ & HN). rewrite HN in H. discriminate.
Qed.

Lemma nextSiblingAscending_fails fuel p e p' :
  nextSiblingAscending h fuel p = Done (Fail e) p' -> p' = p.
Proof.
  unfold nextSiblingAscending, bind at 1 2 3, get_node, get_level. intros H.
  destruct (nextSiblingAscending_loop h fuel p) as [[n|] p''| |] eqn:E;
    try discriminate.
  apply nextSiblingAscending_loop_doc in E.
  revert H. run_go. rewrite E. intros H. injection H as _ <-.
  destruct p; reflexivity.
Qed.

Lemma Next_fails fuel p e p' :
  Next h fuel p = Done (Fail e) p' -> e = ErrEndOfDoc /\ p' = p.
Proof.
  unfold Next, bind at 1. intros H.
  destruct (h (node p)) as [nd|] eqn:E.
  - destruct (moves_spec p E) as (_ & HF & _). rewrite HF in H.
    destruct (html.FirstChild nd) as [s|]; [discriminate|].
    unfold bind at 1 in H.
    destruct (nextSiblingAscending h fuel p) as [[n|e'] p''| |] eqn:EN;
      try discriminate.
    apply nextSiblingAscending_fails in EN. subst p''.
    injection H as <- <-. auto.
  - destruct (moves_panic p E) as (_ & HF & _). rewrite HF in H. discriminate.
Qed.

End AnyHeap.

Lemma last_chain_links (t : tree) (q z : ptr) :
  last_chain t q z ->
  last_child_chain (heap_of t) q z (length z - length q).
Proof.
  induction 1 as [q ty a H | q ty a c cs z H Hc IH].
  - rewrite Nat.sub_diag. eapply last_child_stop.
    + unfold heap_of. rewrite H. reflexivity.
    + reflexivity.
  - apply last_chain_end in Hc as Hc'. destruct Hc' as (_ & Hlen & _).
    simpl in Hlen, IH.
    replace (length z - length q) with (S (length z - S (length q))) by lia.
    eapply last_child_step; [| | exact IH].
    + unfold heap_of. rewrite H. reflexivity.
    + reflexivity.
Qed.

Lemma last_node_only (t : tree) (q : ptr) :
  is_node t q = true -> next_ptr t q = None -> q = last (preorder t) [].
Proof.
  intros Hq Hn. pose proof Hq as Hin. apply preorder_In, in_split in Hin.
  destruct Hin as (L1 & L2 & E).
  destruct (@preorder_walk t [] (size t) (le_n _)) as (HL & _ & _).
  rewrite E in *. destruct L2 as [|b L2].
  - now rewrite last_last.
  - apply linked_app_r in HL. destruct HL as [HL _].
    rewrite Next_cursor in HL by (auto || lia). rewrite Hn in HL. discriminate.
Qed.

(** * Theorems *)

(** C5. Each primitive move fails with [ErrNoSuchRelative] exactly when the
    link it follows is nil, and then leaves the receiver as it was; when the
    link is set the move succeeds, goes to the linked node and adjusts the
    level ([Parent] one down, the child moves one up, the sibling moves not
    at all). *)
Theorem primitive_moves_total (h : Heap) (p : Parser) (nd : html.Node) :
  h (node p) = Some nd ->
  Parent h p =
    match html.Parent nd with
    | None => Done (Fail ErrNoSuchRelative) p
    | Some s => Done (Ok s) (mkParser (doc p) s (int_wrap (level p - 1)))
    end /\
  FirstChild h p =
    match html.FirstChild nd with
    | None => Done (Fail ErrNoSuchRelative) p
    | Some s => Done (Ok s) (mkParser (doc p) s (int_wrap (level p + 1)))
    end /\
  LastChild h p =
    match html.LastChild nd with
    | None => Done (Fail ErrNoSuchRelative) p
    | Some s => Done (Ok s) (mkParser (doc p) s (int_wrap (level p + 1)))
    end /\
  NextSibling h p =
    match html.NextSibling nd with
    | None => Done (Fail ErrNoSuchRelative) p
    | Some s => Done (Ok s) (mkParser (doc p) s (level p))
    end /\
  PrevSibling h p =
    match html.PrevSibling nd with
    | None => Done (Fail ErrNoSuchRelative) p
    | Some s => Done (Ok s) (mkParser (doc p) s (level p))
    end.
Proof.
  intros H. destruct p as [d n l]. simpl in H. run_go. rewrite H.
  destruct nd as [pa fc lc ps ns ty a]. simpl.
  destruct pa, fc, lc, ps, ns; repeat split; reflexivity.
Qed.

(** On the sample document, with the receiver on [<head>]: no child, so both
    child moves fail and change nothing; the other three links are set. *)
Lemma primitive_moves_total_witness :
  Parent Sample.hp Sample.on_head = Done (Ok [0]) (mkParser [] [0] 1) /\
  FirstChild Sample.hp Sample.on_head =
    Done (Fail ErrNoSuchRelative) Sample.on_head /\
  LastChild Sample.hp Sample.on_head =
    Done (Fail ErrNoSuchRelative) Sample.on_head /\
  NextSibling Sample.hp Sample.on_head = Done (Ok [1; 0]) Sample.on_body /\
  PrevSibling Sample.hp Sample.on_head =
    Done (Fail ErrNoSuchRelative) Sample.on_head.
Proof.
  exact (@primitive_moves_total Sample.hp Sample.on_head _ eq_refl).
Defined.

(** C10. On a node that is an element, [NextElement] and [PrevElement]
    return that node at once and leave the receiver as it was; no fuel is
    needed, so neither [Next] nor [Prev] is called. *)
Theorem NextElement_PrevElement_on_element
    (h : Heap) (p : Parser) (nd : html.Node) (fuel : nat) :
  h (node p) = Some nd ->
  html.Type_ nd = html.ElementNode ->
  NextElement h fuel p = Done (Ok (node p)) p /\
  PrevElement h fuel p = Done (Ok (node p)) p /\
  NextElement h 0 p = Done (Ok (node p)) p /\
  PrevElement h 0 p = Done (Ok (node p)) p.
Proof.
  intros H Hty. unfold NextElement, PrevElement.
  assert (E : isElem h (node p) p = Done true p).
  { unfold isElem, bind, load, ret. rewrite H, Hty. reflexivity. }
  assert (HN : forall inner f,
             NextElement_loop h inner f p = Done (Ok (node p)) p).
  { intros inner f. destruct f; cbn [NextElement_loop];
      unfold bind at 1, get_node at 1; cbn beta; unfold bind at 1;
      rewrite E; reflexivity. }
  assert (HP : forall inner f,
             PrevElement_loop h inner f p = Done (Ok (node p)) p).
  { intros inner f. destruct f; cbn [PrevElement_loop];
      unfold bind at 1, get_node at 1; cbn beta; unfold bind at 1;
      rewrite E; reflexivity. }
  rewrite !HN, !HP. auto.
Qed.

Lemma NextElement_PrevElement_on_element_witness :
  NextElement Sample.hp 6 Sample.on_body = Done (Ok [1; 0]) Sample.on_body /\
  PrevElement Sample.hp 6 Sample.on_body = Done (Ok [1; 0]) Sample.on_body /\
  NextElement Sample.hp 0 Sample.on_body = Done (Ok [1; 0]) Sample.on_body /\
  PrevElement Sample.hp 0 Sample.on_body = Done (Ok [1; 0]) Sample.on_body.
Proof.
  exact (@NextElement_PrevElement_on_element Sample.hp Sample.on_body _ 6
           eq_refl eq_refl).
Defined.

(** C3. When [Next] fails the receiver is as it was before the call and the
    error is [ErrEndOfDoc], on any heap and with any fuel; on the heap of a
    tree [Next] does fail so, with fuel for the size of the tree, exactly
    when the node has no child and neither it nor any ancestor has a next
    sibling. *)
Theorem Next_failure_restores
    (t : tree) (d q : ptr) (l : Z) (fuel : nat) :
  is_node t q = true -> in_int l -> size t <= fuel ->
  (next_ptr t q = None <->
   Next (heap_of t) fuel (mkParser d q l) =
   Done (Fail ErrEndOfDoc) (mkParser d q l)) /\
  (forall e p',
     Next (heap_of t) fuel (mkParser d q l) = Done (Fail e) p' ->
     e = ErrEndOfDoc /\ p' = mkParser d q l) /\
  (forall (h : Heap) (n : nat) (p : Parser) e p',
     Next h n p = Done (Fail e) p' -> e = ErrEndOfDoc /\ p' = p).
Proof.
  intros Hq Hl Hf. pose proof (node_depth t q Hq) as Hd.
  split; [|split].
  - rewrite Next_tree by (assumption || lia).
    destruct (next_ptr t q); split; intros H; (reflexivity || discriminate).
  - intros e p'. apply Next_fails.
  - intros h n p e p'. apply Next_fails.
Qed.

(** On the sample document the last node is the text of [<p>], four levels
    down: the search climbs to the root, finds no sibling, and the receiver
    is back on the text at level 4. *)
Lemma Next_failure_restores_witness :
  Next Sample.hp 6 Sample.on_text = Done (Fail ErrEndOfDoc) Sample.on_text.
Proof.
  apply (proj1 (@Next_failure_restores Sample.root [] [0; 0; 1; 0] 4 6
                  eq_refl
                  ltac:(unfold in_int, int_min, int_max; lia)
                  ltac:(simpl; lia))).
  reflexivity.
Defined.

(** C2. On the heap of a tree, with fuel for its size: from any node but the
    last in document order [Next] succeeds and [Prev] then brings back the
    node and the level; from any node but the root [Prev] succeeds and
    [Next] then brings them back. *)
Theorem Next_Prev_inverse (t : tree) (d q : ptr) (l : Z) (fuel : nat) :
  is_node t q = true -> in_int l -> size t <= fuel ->
  (q <> last (preorder t) [] ->
   exists r p',
     Next (heap_of t) fuel (mkParser d q l) = Done (Ok r) p' /\
     Prev (heap_of t) fuel p' = Done (Ok q) (mkParser d q l)) /\
  (q <> [] ->
   exists r p',
     Prev (heap_of t) fuel (mkParser d q l) = Done (Ok r) p' /\
     Next (heap_of t) fuel p' = Done (Ok q) (mkParser d q l)).
Proof.
  intros Hq Hl Hf. pose proof (node_depth t q Hq) as Hd. split.
  - intros Hlast.
    destruct (next_ptr t q) as [r|] eqn:En;
      [| now apply last_node_only in En].
    pose proof (Next_tree t d q Hq Hl (fuel:=fuel) ltac:(lia)) as HN.
    rewrite En in HN. eexists _, _. split; [exact HN|].
    eapply Next_then_Prev; eauto.
  - intros Hroot. pose proof (Prev_tree t d q Hq Hl Hf) as HP.
    destruct q as [|[|j] q']; [congruence | |].
    + eexists _, _. split; [exact HP|]. eapply Prev_then_Next; eauto.
    + destruct HP as (z & _ & HP). eexists _, _. split; [exact HP|].
      eapply Prev_then_Next; eauto.
Qed.

(** On the sample document, from [<head>]: [Next] goes to [<body>] and
    [Prev] comes back; [Prev] goes to [<html>] and [Next] comes back. *)
Lemma Next_Prev_inverse_witness :
  (exists r p',
     Next Sample.hp 6 Sample.on_head = Done (Ok r) p' /\
     Prev Sample.hp 6 p' = Done (Ok [0; 0]) Sample.on_head) /\
  (exists r p',
     Prev Sample.hp 6 Sample.on_head = Done (Ok r) p' /\
     Next Sample.hp 6 p' = Done (Ok [0; 0]) Sample.on_head).
Proof.
  destruct (@Next_Prev_inverse Sample.root [] [0; 0] 2 6 eq_refl
              ltac:(unfold in_int, int_min, int_max; lia)
              ltac:(simpl; lia)) as [H1 H2].
  split; [apply H1 | apply H2]; discriminate.
Defined.

(** C6. [Prev] on the heap of a tree, with fuel for its size: with a previous
    sibling [s] it ends on the node the last-child links lead to from [s]
    ([s] itself when [s] has no child), one level up for every link; with
    none but a parent it goes to the parent, one level down; with neither,
    which is the root, it fails with [ErrBegOfDoc] and the receiver is as it
    was. *)
Theorem Prev_mirrors_Next
    (t : tree) (d q : ptr) (l : Z) (fuel : nat) (nd : html.Node) :
  in_int l -> size t <= fuel -> heap_of t q = Some nd ->
  match html.PrevSibling nd, html.Parent nd with
  | Some s, _ =>
      exists z k,
        last_child_chain (heap_of t) s z k /\
        Prev (heap_of t) fuel (mkParser d q l) =
        Done (Ok z) (mkParser d z (int_wrap (l + Z.of_nat k)))
  | None, Some pa =>
      Prev (heap_of t) fuel (mkParser d q l) =
      Done (Ok pa) (mkParser d pa (int_wrap (l - 1)))
  | None, None =>
      q = [] /\
      Prev (heap_of t) fuel (mkParser d q l) =
      Done (Fail ErrBegOfDoc) (mkParser d q l)
  end.
Proof.
  intros Hl Hf Hnd.
  assert (Hq : is_node t q = true).
  { unfold heap_of in Hnd. unfold is_node.
    destruct (subtree_at t q); [reflexivity | discriminate]. }
  pose proof (Prev_tree t d q Hq Hl Hf) as HP.
  unfold heap_of in Hnd. apply is_node_true in Hq. destruct Hq as [s Hs].
  rewrite Hs in Hnd. injection Hnd as <-. cbn [html.PrevSibling html.Parent].
  destruct q as [|[|j] q'].
  - auto.
  - exact HP.
  - destruct HP as (z & Hz & HP). exists z, (length z - length (j :: q')).
    split; [now apply last_chain_links|].
    rewrite HP. do 3 f_equal.
    destruct (last_chain_end Hz) as (_ & Hlen & _).
    rewrite Nat2Z.inj_sub by exact Hlen. simpl length. lia.
Qed.

(** On the sample document, from [<body>]: the previous sibling is [<head>],
    which has no child, so [Prev] stays on it. *)
Lemma Prev_mirrors_Next_witness :
  exists z k,
    last_child_chain Sample.hp [0; 0] z k /\
    Prev Sample.hp 6 Sample.on_body =
    Done (Ok z) (mkParser [] z (int_wrap (2 + Z.of_nat k))).
Proof.
  exact (@Prev_mirrors_Next Sample.root [] [1; 0] 2 6 _
           ltac:(unfold in_int, int_min, int_max; lia)
           ltac:(simpl; lia) eq_refl).
Defined.

Lemma rev_head (P : list ptr) (x : ptr) :
  P <> [] -> rev P = last P x :: tl (rev P).
Proof.
  intros H. destruct (exists_last H) as (A & z & ->).
  rewrite rev_app_distr, last_last. reflexivity.
Qed.

Lemma last_In (P : list ptr) (x : ptr) : P <> [] -> In (last P x) P.
Proof.
  intros H. destruct (exists_last H) as (A & z & ->).
  rewrite last_last. apply in_or_app. right. now left.
Qed.

(** C1. On the heap of a tree [t], with fuel for its size: [size t] calls of
    [Next] from the root answer the nodes of [t] after the root in document
    order, one per call, and the last call fails with [ErrEndOfDoc]; from the
    last node [size t] calls of [Prev] answer the same nodes in the reverse
    order, down to the root, and the last call fails with [ErrBegOfDoc].
    Document order lists every node of [t], each once. *)
Theorem Next_Prev_document_order (t : tree) (fuel : nat) :
  size t <= fuel ->
  calls (Next (heap_of t) fuel) (size t) (NewParser []) =
    map (moved []) (tl (preorder t)) ++
    [Done (Fail ErrEndOfDoc) (cursor [] (last (preorder t) []))] /\
  calls (Prev (heap_of t) fuel) (size t) (cursor [] (last (preorder t) [])) =
    map (moved []) (tl (rev (preorder t))) ++
    [Done (Fail ErrBegOfDoc) (NewParser [])] /\
  hd [] (preorder t) = [] /\
  NoDup (preorder t) /\
  (forall q, In q (preorder t) <-> is_node t q = true) /\
  length (preorder t) = size t.
Proof.
  intros Hf.
  destruct (@preorder_walk t [] fuel Hf) as (HL & HF & Hn).
  pose proof (preorder_from_length t []) as Hlen. fold (preorder t) in Hlen.
  pose proof (preorder_from_cons [] t) as Hc. fold (preorder t) in Hc.
  pose proof (preorder_from_NoDup t []) as Hnd. fold (preorder t) in Hnd.
  pose proof (preorder_In t) as Hin.
  destruct (preorder t) as [|a L] eqn:EP; [discriminate|].
  injection Hc as ->. rewrite <- Hlen. cbn [tl hd length].
  rewrite last_cons in Hn |- *.
  assert (Hz : is_node t (last L []) = true).
  { apply Hin. rewrite <- (last_cons _ _ []). now apply last_In. }
  split; [|split; [|split; [|split; [|split]]]]; auto.
  - apply (@calls_linked (Next (heap_of t) fuel) [] ErrEndOfDoc L [] HL).
    rewrite Next_cursor by assumption. now rewrite Hn.
  - assert (HB : linked (Prev (heap_of t) fuel) [] (rev ([] :: L))).
    { apply (@linked_rev (Next (heap_of t) fuel)); [|exact HL].
      intros a b Ha. apply Next_Prev_cursor; [exact Hf|]. now apply Hin. }
    assert (Hr : rev ([] :: L) = last L [] :: tl (rev ([] :: L))).
    { rewrite <- (last_cons _ _ []). apply rev_head. discriminate. }
    assert (Hl : S (length L) = S (length (tl (rev ([] :: L))))).
    { change (S (length L)) with (length ([] :: L)).
      rewrite <- (length_rev ([] :: L)), Hr at 1. reflexivity. }
    rewrite Hl. rewrite Hr in HB.
    pose proof (@calls_linked _ _ ErrBegOfDoc _ _ HB) as HC.
    match type of HC with
    | (_ (cursor _ ?z) = _) -> _ =>
        assert (E : z = [])
          by (rewrite <- (last_cons _ _ []), <- Hr; simpl rev; apply last_last);
        rewrite E in HC
    end.
    apply HC. exact (Prev_tree t [] [] eq_refl (int_wrap_in _) Hf).
Qed.

(** The sample document: five moves and the failing sixth call, forwards
    and backwards. *)
Lemma Next_Prev_document_order_witness :
  calls (Next Sample.hp 6) 6 (NewParser []) =
    [moved [] [0]; moved [] [0; 0]; moved [] [1; 0]; moved [] [0; 1; 0];
     moved [] [0; 0; 1; 0]; Done (Fail ErrEndOfDoc) Sample.on_text] /\
  calls (Prev Sample.hp 6) 6 Sample.on_text =
    [moved [] [0; 1; 0]; moved [] [1; 0]; moved [] [0; 0]; moved [] [0];
     moved [] []; Done (Fail ErrBegOfDoc) (NewParser [])].
Proof.
  destruct (@Next_Prev_document_order Sample.root 6 (le_n 6)) as (H1 & H2 & _).
  split; [exact H1 | exact H2].
Defined.

(** ** From a node in the middle of the document *)

Lemma last_app_cons (pre : list ptr) (q : ptr) (rest : list ptr) (x : ptr) :
  last (pre ++ q :: rest) x = last rest q.
Proof.
  induction pre as [|a pre IH].
  - apply last_cons.
  - rewrite <- IH. destruct pre; reflexivity.
Qed.

Section Middle.

Variable t : tree.
Variable d : ptr.
Variable fuel : nat.
Hypothesis Hfuel : size t <= fuel.
Variables (pre : list ptr) (q : ptr) (rest : list ptr).
Hypothesis Hsplit : preorder t = pre ++ q :: rest.

Lemma preorder_suffix :
  linked (Next (heap_of t) fuel) d (q :: rest) /\
  Forall (fun x => is_node t x = true) (q :: rest) /\
  Next (heap_of t) fuel (cursor d (last rest q)) =
    Done (Fail ErrEndOfDoc) (cursor d (last rest q)) /\
  length rest < fuel.
Proof.
  destruct (@preorder_walk t d fuel Hfuel) as (HL & HF & Hn).
  pose proof (preorder_from_length t []) as Hlen. fold (preorder t) in Hlen.
  rewrite Hsplit in *. rewrite last_app_cons in Hn.
  apply linked_app_r in HL. apply Forall_app in HF. destruct HF as [_ HF].
  split; [exact HL|]. split; [exact HF|]. split.
  - rewrite Next_cursor; [now rewrite Hn | exact Hfuel |].
    rewrite Forall_forall in HF. apply HF.
    rewrite <- (last_cons _ _ []). apply last_In. discriminate.
  - rewrite length_app in Hlen. simpl in Hlen. lia.
Qed.

Lemma preorder_prefix :
  linked (Prev (heap_of t) fuel) d (q :: rev pre) /\
  Forall (fun x => is_node t x = true) (q :: rev pre) /\
  last (rev pre) q = [] /\
  Prev (heap_of t) fuel (cursor d []) = Done (Fail ErrBegOfDoc) (cursor d []) /\
  length (rev pre) < fuel.
Proof.
  destruct (@preorder_walk t d fuel Hfuel) as (HL & HF & _).
  pose proof (preorder_from_length t []) as Hlen. fold (preorder t) in Hlen.
  pose proof (preorder_from_cons [] t) as Hc. fold (preorder t) in Hc.
  assert (HB : linked (Prev (heap_of t) fuel) d (rev (preorder t))).
  { apply (@linked_rev (Next (heap_of t) fuel)); [|exact HL].
    intros a b Ha. apply Next_Prev_cursor; [exact Hfuel|].
    now apply preorder_In. }
  rewrite Hsplit in *. rewrite rev_app_distr in HB. simpl rev in HB.
  rewrite <- app_assoc in HB. apply linked_app_r in HB.
  split; [exact HB|]. split; [|split; [|split]].
  - apply Forall_app in HF. destruct HF as [H1 H2].
    inversion H2; subst. constructor; [assumption|].
    apply Forall_forall. intros x Hx. rewrite Forall_forall in H1.
    apply H1. now apply in_rev.
  - destruct pre as [|a pre'].
    + simpl in *. congruence.
    + simpl in Hc. injection Hc as ->. simpl rev. apply last_last.
  - exact (Prev_tree t d [] eq_refl (int_wrap_in _) Hfuel).
  - rewrite length_rev. rewrite length_app in Hlen. simpl in Hlen. lia.
Qed.

Lemma NextElementByAtom_tree a :
  NextElementByAtom (heap_of t) a fuel (cursor d q) =
  match find (is_match_at t a) rest with
  | Some r => moved d r
  | None => Done (Fail ErrEndOfDoc) (cursor d (last rest q))
  end.
Proof.
  destruct preorder_suffix as (HL & HF & He & Hlen).
  unfold NextElementByAtom, bind at 1. destruct rest as [|b rest'].
  - simpl in *. now rewrite He.
  - destruct HL as [H1 H2]. rewrite H1. unfold moved at 1.
    inversion HF; subst. rewrite last_cons in He |- *.
    apply ElementByAtom_loop_linked; try assumption. simpl in Hlen. lia.
Qed.

Lemma NextElement_tree :
  NextElement (heap_of t) fuel (cursor d q) =
  match find (is_elem_at t) (q :: rest) with
  | Some r => moved d r
  | None => Done (Fail ErrEndOfDoc) (cursor d (last rest q))
  end.
Proof.
  destruct preorder_suffix as (HL & HF & He & Hlen).
  now apply NextElement_loop_linked.
Qed.

Lemma PrevElement_tree :
  PrevElement (heap_of t) fuel (cursor d q) =
  match find (is_elem_at t) (q :: rev pre) with
  | Some r => moved d r
  | None => Done (Fail ErrBegOfDoc) (cursor d [])
  end.
Proof.
  destruct preorder_prefix as (HL & HF & Hlast & He & Hlen).
  unfold PrevElement.
  rewrite (@PrevElement_loop_linked t d fuel (rev pre) q HL HF);
    rewrite ?Hlast; auto.
Qed.

Lemma later_is_other r : In r rest -> r <> q.
Proof.
  intros Hr ->. pose proof (preorder_from_NoDup t []) as Hnd.
  fold (preorder t) in Hnd. rewrite Hsplit in Hnd.
  apply NoDup_remove_2 in Hnd. apply Hnd, in_or_app. now right.
Qed.

Lemma earlier_is_other r : In r pre -> r <> q.
Proof.
  intros Hr ->. pose proof (preorder_from_NoDup t []) as Hnd.
  fold (preorder t) in Hnd. rewrite Hsplit in Hnd.
  apply NoDup_remove_2 in Hnd. apply Hnd, in_or_app. now left.
Qed.

End Middle.

(** C9. On the heap of a tree, with fuel for its size, from the node [q] of
    the document [pre ++ q :: rest]: [NextElement] answers the first element
    among [q] and the nodes after it, [PrevElement] the nearest element among
    [q] and the nodes before it.  When there is none they fail with
    [ErrEndOfDoc] and [ErrBegOfDoc], and the receiver is not put back on [q]:
    it stays on the last node of the document, or on the root. *)
Theorem NextElement_PrevElement_no_rollback
    (t : tree) (d : ptr) (fuel : nat) (pre : list ptr) (q : ptr) (rest : list ptr) :
  size t <= fuel ->
  preorder t = pre ++ q :: rest ->
  NextElement (heap_of t) fuel (cursor d q) =
    match find (is_elem_at t) (q :: rest) with
    | Some r => moved d r
    | None => Done (Fail ErrEndOfDoc) (cursor d (last rest q))
    end /\
  PrevElement (heap_of t) fuel (cursor d q) =
    match find (is_elem_at t) (q :: rev pre) with
    | Some r => moved d r
    | None => Done (Fail ErrBegOfDoc) (cursor d [])
    end /\
  (find (is_elem_at t) (q :: rest) = None -> rest <> [] ->
   NextElement (heap_of t) fuel (cursor d q) =
     Done (Fail ErrEndOfDoc) (cursor d (last rest q)) /\
   last rest q <> q) /\
  (find (is_elem_at t) (q :: rev pre) = None -> pre <> [] ->
   PrevElement (heap_of t) fuel (cursor d q) =
     Done (Fail ErrBegOfDoc) (cursor d []) /\
   [] <> q).
Proof.
  intros Hf Hs.
  pose proof (@NextElement_tree t d fuel Hf pre q rest Hs) as HN.
  pose proof (@PrevElement_tree t d fuel Hf pre q rest Hs) as HP.
  split; [exact HN|]. split; [exact HP|]. split.
  - intros E Hne. rewrite E in HN. split; [exact HN|].
    apply (@later_is_other t pre q rest Hs). now apply last_In.
  - intros E Hne. rewrite E in HP. split; [exact HP|].
    apply (@earlier_is_other t pre q rest Hs).
    pose proof (preorder_from_cons [] t) as Hc. fold (preorder t) in Hc.
    rewrite Hs in Hc. destruct pre as [|a pre']; [congruence|].
    injection Hc as ->. now left.
Qed.

(** The document with a doctype and two trailing comments: from the first
    comment [NextElement] ends on the second comment, from the doctype
    [PrevElement] ends on the document node. *)
Lemma NextElement_PrevElement_no_rollback_witness :
  NextElement Trailing.hp 7 (cursor [] [2]) =
    Done (Fail ErrEndOfDoc) (cursor [] [3]) /\
  PrevElement Trailing.hp 7 (cursor [] [0]) =
    Done (Fail ErrBegOfDoc) (cursor [] []).
Proof.
  split.
  - exact (proj1 (@NextElement_PrevElement_no_rollback Trailing.root [] 7
                    [[]; [0]; [1]; [0; 1]; [1; 1]] [2] [[3]]
                    ltac:(simpl; lia) eq_refl)).
  - exact (proj1 (proj2 (@NextElement_PrevElement_no_rollback Trailing.root [] 7
                    [[]] [0] [[1]; [0; 1]; [1; 1]; [2]; [3]]
                    ltac:(simpl; lia) eq_refl))).
Defined.

(** C8. On the heap of a tree, with fuel for its size, from the node [q] of
    the document [pre ++ q :: rest]: [NextElementByAtom] answers the first
    element with the atom among the nodes after [q], or fails with
    [ErrEndOfDoc] on the last node; the node it answers is after [q] in
    document order and is not [q], whatever [q] is. *)
Theorem NextElementByAtom_strictly_later
    (t : tree) (d : ptr) (a : Atom) (fuel : nat)
    (pre : list ptr) (q : ptr) (rest : list ptr) :
  size t <= fuel ->
  preorder t = pre ++ q :: rest ->
  NextElementByAtom (heap_of t) a fuel (cursor d q) =
    match find (is_match_at t a) rest with
    | Some r => moved d r
    | None => Done (Fail ErrEndOfDoc) (cursor d (last rest q))
    end /\
  (forall r p',
     NextElementByAtom (heap_of t) a fuel (cursor d q) = Done (Ok r) p' ->
     In r rest /\ r <> q /\ is_match_at t a r = true).
Proof.
  intros Hf Hs.
  pose proof (@NextElementByAtom_tree t d fuel Hf pre q rest Hs a) as HN.
  split; [exact HN|]. intros r p' H. rewrite HN in H.
  destruct (find (is_match_at t a) rest) as [r'|] eqn:E; [|discriminate].
  injection H as H1 _. subst r'. apply find_some in E. destruct E as [Hin Hm].
  split; [exact Hin|]. split; [|exact Hm].
  exact (@later_is_other t pre q rest Hs r Hin).
Qed.

(** On the sample document, standing on [<body>] and asking for the next
    [<body>]: the node under the receiver is not answered, the search runs
    to the end of the document. *)
Lemma NextElementByAtom_strictly_later_witness :
  NextElementByAtom Sample.hp Sample.a_body 6 (cursor [] [1; 0]) =
  Done (Fail ErrEndOfDoc) (cursor [] [0; 0; 1; 0]).
Proof.
  exact (proj1 (@NextElementByAtom_strictly_later Sample.root [] Sample.a_body 6
                  [[]; [0]; [0; 0]] [1; 0] [[0; 1; 0]; [0; 0; 1; 0]]
                  ltac:(simpl; lia) eq_refl)).
Defined.

(** C7. On the heap of a tree, with fuel for its size, whatever node the
    receiver is on: [FirstElementByAtom] answers the first element with the
    atom among the nodes after the root, at its level; when there is none it
    fails with the [ErrEndOfDoc] of [Next] and the receiver is on the last
    node of the document.  So does [FirstMeta] on a document without
    [<meta>].  The method is [Reset], which puts the receiver on the root at
    level 0, followed by the search of [NextElementByAtom]: a [Next] first,
    then [Next] until the node matches. *)
Theorem FirstElementByAtom_search
    (t : tree) (a : Atom) (fuel : nat) (p : Parser) :
  size t <= fuel ->
  doc p = [] ->
  Reset p = Done [] (NewParser []) /\
  FirstElementByAtom (heap_of t) a fuel p =
    NextElementByAtom (heap_of t) a fuel (NewParser []) /\
  FirstElementByAtom (heap_of t) a fuel p =
    match find (is_match_at t a) (tl (preorder t)) with
    | Some r => moved [] r
    | None => Done (Fail ErrEndOfDoc) (cursor [] (last (preorder t) []))
    end /\
  (forall r p',
     FirstElementByAtom (heap_of t) a fuel p = Done (Ok r) p' ->
     is_match_at t a r = true /\ p' = cursor [] r) /\
  ((forall x, is_match_at t a x = false) ->
   FirstMeta (heap_of t) a fuel p =
   Done (Fail ErrEndOfDoc) (cursor [] (last (preorder t) []))).
Proof.
  intros Hf Hd.
  pose proof (preorder_from_cons [] t) as Hc. fold (preorder t) in Hc.
  assert (E : FirstElementByAtom (heap_of t) a fuel p =
              NextElementByAtom (heap_of t) a fuel (cursor [] [])).
  { unfold FirstElementByAtom, bind at 1. destruct p as [d n l].
    simpl in Hd. subst d. reflexivity. }
  assert (HN : FirstElementByAtom (heap_of t) a fuel p =
    match find (is_match_at t a) (tl (preorder t)) with
    | Some r => moved [] r
    | None => Done (Fail ErrEndOfDoc) (cursor [] (last (preorder t) []))
    end).
  { rewrite E, (@NextElementByAtom_tree t [] fuel Hf [] [] (tl (preorder t)) Hc a).
    replace (last (preorder t) []) with (last (tl (preorder t)) []);
      [reflexivity|].
    destruct (preorder t) as [|x L]; [discriminate|].
    injection Hc as ->. symmetry. apply last_cons. }
  split; [destruct p as [d n l]; simpl in Hd; subst d; reflexivity|].
  split; [exact E|]. split; [exact HN|]. split.
  - intros r p' H. rewrite HN in H.
    destruct (find (is_match_at t a) (tl (preorder t))) as [r'|] eqn:Ef;
      [|discriminate].
    injection H as H1 H2. subst r' p'. apply find_some in Ef. now destruct Ef.
  - intros Hno. unfold FirstMeta. rewrite HN.
    destruct (find (is_match_at t a) (tl (preorder t))) as [r'|] eqn:Ef;
      [|reflexivity].
    apply find_some in Ef. destruct Ef as [_ Ef]. rewrite Hno in Ef. discriminate.
Qed.

(** On the sample document, from the text of [<p>]: [<body>] is found at
    level 2, after [<head>] was passed over; there is no [<meta>], and the
    search for one ends on the text, the last node. *)
Lemma FirstElementByAtom_search_witness :
  FirstElementByAtom Sample.hp Sample.a_body 6 Sample.on_text =
    Done (Ok [1; 0]) Sample.on_body /\
  FirstMeta Sample.hp Sample.a_meta 6 Sample.on_text =
    Done (Fail ErrEndOfDoc) Sample.on_text.
Proof.
  split.
  - exact (proj1 (proj2 (proj2
             (@FirstElementByAtom_search Sample.root Sample.a_body 6
                Sample.on_text ltac:(simpl; lia) eq_refl)))).
  - exact (proj1 (proj2 (proj2
             (@FirstElementByAtom_search Sample.root Sample.a_meta 6
                Sample.on_text ltac:(simpl; lia) eq_refl)))).
Defined.

(** ** The level is the depth *)

Lemma depth_in_tree (t : tree) (q : ptr) : forall fuel,
  is_node t q = true -> length q < fuel ->
  depth_in (heap_of t) fuel q = Some (length q).
Proof.
  induction q as [|i q IH]; intros fuel Hq Hf;
    (destruct fuel as [|fuel]; [simpl in Hf; lia|]);
    pose proof Hq as Hs; apply is_node_true in Hs; destruct Hs as [s Hs];
    cbn [depth_in]; unfold heap_of at 1; rewrite Hs; cbn [html.Parent].
  - reflexivity.
  - rewrite IH; [reflexivity | now apply is_node_parent in Hq | simpl in Hf; lia].
Qed.

Lemma level_up (n : nat) :
  int_wrap (int_wrap (Z.of_nat n) + 1) = int_wrap (Z.of_nat (S n)).
Proof. rewrite int_wrap_add. f_equal. lia. Qed.

Lemma level_down (n : nat) :
  int_wrap (int_wrap (Z.of_nat (S n)) - 1) = int_wrap (Z.of_nat n).
Proof. rewrite int_wrap_sub. f_equal. lia. Qed.

Section Invariant.

Variable t : tree.
Variable fuel : nat.
Hypothesis Hfuel : size t <= fuel.
Variables atom_Body atom_Head atom_Meta : Atom.

Lemma on_node_moved (q : ptr) :
  is_node t q = true -> on_node t (moved [] q).
Proof. intros H. exists (Ok q), q. auto. Qed.

Lemma on_node_failed (e : Error) (q : ptr) :
  is_node t q = true -> on_node t (Done (Fail e) (cursor [] q)).
Proof. intros H. exists (Fail e), q. auto. Qed.

Lemma primitives_on_node q :
  is_node t q = true ->
  on_node t (Parent (heap_of t) (cursor [] q)) /\
  on_node t (FirstChild (heap_of t) (cursor [] q)) /\
  on_node t (LastChild (heap_of t) (cursor [] q)) /\
  on_node t (NextSibling (heap_of t) (cursor [] q)) /\
  on_node t (PrevSibling (heap_of t) (cursor [] q)).
Proof.
  intros Hq. pose proof Hq as Hs. apply is_node_true in Hs.
  destruct Hs as [s Hs]. unfold cursor.
  rewrite Parent_tree, (FirstChild_tree t [] q _ Hs),
    (LastChild_tree t [] q _ Hs), NextSibling_tree, PrevSibling_tree
    by assumption.
  repeat split.
  - destruct q as [|i q']; [now apply on_node_failed|].
    simpl length. rewrite level_down. apply on_node_moved.
    now apply is_node_parent in Hq.
  - destruct (children s) as [|c cs] eqn:E; [now apply on_node_failed|].
    rewrite level_up. apply (on_node_moved (0 :: q)).
    apply (is_node_child t 0 q Hs). rewrite E. simpl. lia.
  - destruct (children s) as [|c cs] eqn:E; [now apply on_node_failed|].
    rewrite level_up. apply (on_node_moved (length cs :: q)).
    apply (is_node_child t (length cs) q Hs). rewrite E. simpl. lia.
  - destruct q as [|i q']; [now apply on_node_failed|].
    destruct (is_node t (S i :: q')) eqn:E; [|now apply on_node_failed].
    now apply (on_node_moved (S i :: q')).
  - destruct q as [|[|j] q']; try now apply on_node_failed.
    apply (on_node_moved (j :: q')).
    pose proof Hq as Hp. apply is_node_parent, is_node_true in Hp.
    destruct Hp as [s' Hs'].
    apply (is_node_child t (S j) q' Hs') in Hq.
    apply (is_node_child t j q' Hs'). lia.
Qed.

Lemma node_split q :
  is_node t q = true -> exists pre rest, preorder t = pre ++ q :: rest.
Proof. intros H. now apply preorder_In, in_split in H. Qed.

Lemma steps_on_node q :
  is_node t q = true ->
  on_node t (Next (heap_of t) fuel (cursor [] q)) /\
  on_node t (Prev (heap_of t) fuel (cursor [] q)) /\
  on_node t (NextElement (heap_of t) fuel (cursor [] q)) /\
  on_node t (PrevElement (heap_of t) fuel (cursor [] q)) /\
  (forall a, on_node t (NextElementByAtom (heap_of t) a fuel (cursor [] q))).
Proof.
  intros Hq. destruct (node_split q Hq) as (pre & rest & Hs).
  destruct (@preorder_suffix t [] fuel Hfuel pre q rest Hs)
    as (HL & HF & He & _).
  destruct (@preorder_prefix t [] fuel Hfuel pre q rest Hs)
    as (HL' & HF' & Hlast & He' & _).
  assert (Hend : is_node t (last rest q) = true).
  { rewrite Forall_forall in HF. apply HF.
    rewrite <- (last_cons _ _ []). apply last_In. discriminate. }
  repeat split.
  - destruct rest as [|b rest'].
    + simpl in He. rewrite He. now apply on_node_failed.
    + destruct HL as [H1 _]. rewrite H1. apply on_node_moved.
      inversion HF as [|? ? _ HF2]; subst. now inversion HF2.
  - destruct (rev pre) as [|b L].
    + simpl in Hlast. subst q. rewrite He'. now apply on_node_failed.
    + destruct HL' as [H1 _]. rewrite H1. apply on_node_moved.
      inversion HF' as [|? ? _ HF2]; subst. now inversion HF2.
  - rewrite (@NextElement_tree t [] fuel Hfuel pre q rest Hs).
    destruct (find (is_elem_at t) (q :: rest)) as [r|] eqn:E.
    + apply on_node_moved. apply find_some in E. destruct E as [E _].
      rewrite Forall_forall in HF. now apply HF.
    + now apply on_node_failed.
  - rewrite (@PrevElement_tree t [] fuel Hfuel pre q rest Hs).
    destruct (find (is_elem_at t) (q :: rev pre)) as [r|] eqn:E.
    + apply on_node_moved. apply find_some in E. destruct E as [E _].
      rewrite Forall_forall in HF'. now apply HF'.
    + now apply on_node_failed.
  - intros a. rewrite (@NextElementByAtom_tree t [] fuel Hfuel pre q rest Hs).
    destruct (find (is_match_at t a) rest) as [r|] eqn:E.
    + apply on_node_moved. apply find_some in E. destruct E as [E _].
      rewrite Forall_forall in HF. apply HF. now right.
    + now apply on_node_failed.
Qed.

Lemma first_on_node a q :
  on_node t (FirstElementByAtom (heap_of t) a fuel (cursor [] q)).
Proof.
  replace (FirstElementByAtom (heap_of t) a fuel (cursor [] q))
    with (NextElementByAtom (heap_of t) a fuel (cursor [] [])) by reflexivity.
  now apply steps_on_node.
Qed.

Lemma exec_on_node o q :
  is_node t q = true ->
  on_node t (exec (heap_of t) atom_Body atom_Head atom_Meta o fuel (cursor [] q)).
Proof.
  intros Hq.
  destruct (primitives_on_node q Hq) as (H1 & H2 & H3 & H4 & H5).
  destruct (steps_on_node q Hq) as (H6 & H7 & H8 & H9 & H10).
  destruct o; cbn [exec]; unfold Body, Head, FirstMeta, NextMeta;
    auto using first_on_node.
  exists (Ok []), []. split; reflexivity.
Qed.

Lemma run_on_node ops : forall q,
  is_node t q = true ->
  on_node t (run (heap_of t) atom_Body atom_Head atom_Meta ops fuel (cursor [] q)).
Proof.
  induction ops as [|o ops IH]; intros q Hq; cbn [run].
  - exists tt, q. auto.
  - unfold bind at 1.
    destruct (exec_on_node o q Hq) as (r & q' & -> & Hq'). now apply IH.
Qed.

End Invariant.

Lemma level_in_range (t : tree) (q : ptr) :
  is_node t q = true -> (Z.of_nat (size t) <= int_max)%Z ->
  int_wrap (Z.of_nat (length q)) = Z.of_nat (length q).
Proof.
  intros Hq Hmax. apply node_depth in Hq. apply int_wrap_id.
  unfold in_int, int_min, int_max in *. lia.
Qed.

(** C4. On the heap of a tree that an [int] can count, with fuel for its
    size: after construction and any sequence of calls of the exported
    methods, [Reset] among them, the receiver is on a node of the tree and
    its level is the number of parent links from that node to the root.
    From such a state a successful [Parent] lowers the level by one,
    [FirstChild] and [LastChild] raise it by one, [NextSibling] and
    [PrevSibling] keep it. *)
Theorem level_is_depth
    (t : tree) (atom_Body atom_Head atom_Meta : Atom)
    (fuel : nat) (ops : list Op) :
  size t <= fuel ->
  (Z.of_nat (size t) <= int_max)%Z ->
  exists p k,
    run (heap_of t) atom_Body atom_Head atom_Meta ops fuel (NewParser []) =
      Done tt p /\
    is_node t (node p) = true /\
    depth_in (heap_of t) fuel (node p) = Some k /\
    level p = Z.of_nat k /\
    (forall r p', Parent (heap_of t) p = Done (Ok r) p' ->
                  level p' = (level p - 1)%Z) /\
    (forall r p', FirstChild (heap_of t) p = Done (Ok r) p' ->
                  level p' = (level p + 1)%Z) /\
    (forall r p', LastChild (heap_of t) p = Done (Ok r) p' ->
                  level p' = (level p + 1)%Z) /\
    (forall r p', NextSibling (heap_of t) p = Done (Ok r) p' ->
                  level p' = level p) /\
    (forall r p', PrevSibling (heap_of t) p = Done (Ok r) p' ->
                  level p' = level p).
Proof.
  intros Hf Hmax.
  destruct (@run_on_node t fuel Hf atom_Body atom_Head atom_Meta ops [] eq_refl)
    as ([] & q & Hrun & Hq).
  exists (cursor [] q), (length q).
  pose proof (level_in_range t q Hq Hmax) as Hl.
  pose proof (node_depth t q Hq) as Hd.
  destruct (@primitives_on_node t fuel Hf q Hq) as (H1 & H2 & H3 & H4 & H5).
  split; [exact Hrun|]. split; [exact Hq|].
  split; [apply depth_in_tree; [exact Hq | lia]|].
  split; [exact Hl|].
  assert (On : forall o r (p' : Parser),
             on_node t o -> o = Done (Ok r) p' ->
             level p' = Z.of_nat (length (node p')) /\ is_node t (node p') = true).
  { intros o r p' (a & q' & -> & Hq') E. injection E as _ <-.
    split; [exact (level_in_range t q' Hq' Hmax) | exact Hq']. }
  cbn [level cursor]. rewrite Hl. repeat split; intros r p' E.
  - destruct (On _ r p' H1 E) as [-> _]. unfold cursor in E.
    rewrite Parent_tree in E by assumption.
    destruct q as [|i q']; [discriminate|]. injection E as _ <-.
    cbn [node length]. lia.
  - destruct (On _ r p' H2 E) as [-> _]. unfold cursor in E.
    apply is_node_true in Hq. destruct Hq as [s Hs].
    rewrite (FirstChild_tree t [] q _ Hs) in E.
    destruct (children s); [discriminate|]. injection E as _ <-.
    cbn [node length]. lia.
  - destruct (On _ r p' H3 E) as [-> _]. unfold cursor in E.
    apply is_node_true in Hq. destruct Hq as [s Hs].
    rewrite (LastChild_tree t [] q _ Hs) in E.
    destruct (children s); [discriminate|]. injection E as _ <-.
    cbn [node length]. lia.
  - destruct (On _ r p' H4 E) as [-> _]. unfold cursor in E.
    rewrite NextSibling_tree in E by assumption.
    destruct q as [|i q']; [discriminate|].
    destruct (is_node t (S i :: q')); [|discriminate]. injection E as _ <-.
    reflexivity.
  - destruct (On _ r p' H5 E) as [-> _]. unfold cursor in E.
    rewrite PrevSibling_tree in E by assumption.
    destruct q as [|[|j] q']; try discriminate. injection E as _ <-.
    reflexivity.
Qed.

(** The sample document: [Body], then down to [<p>] and its text, a failing
    [Next], back with [Prev], up with [Parent]. *)
Lemma level_is_depth_witness :
  exists p k,
    run Sample.hp Sample.a_body Sample.a_head Sample.a_meta
      [OpBody; OpFirstChild; OpNext; OpNext; OpPrev; OpParent] 6 (NewParser []) =
      Done tt p /\
    depth_in Sample.hp 6 (node p) = Some k /\
    level p = Z.of_nat k.
Proof.
  destruct (@level_is_depth Sample.root Sample.a_body Sample.a_head Sample.a_meta
              6 [OpBody; OpFirstChild; OpNext; OpNext; OpPrev; OpParent]
              ltac:(simpl; lia) ltac:(unfold int_max; simpl; lia))
    as (p & k & H1 & _ & H2 & H3 & _).
  exists p, k. auto.
Defined.

(** * Further properties *)

(** ** Any heap: what every method keeps *)

Lemma bind_inv {A B} (m : M A) (k : A -> M B) p b p' :
  bind m k p = Done b p' ->
  exists a p1, m p = Done a p1 /\ k a p1 = Done b p'.
Proof.
  unfold bind. destruct (m p) as [a p1| |]; try discriminate. eauto.
Qed.

Lemma answer_node (p : Parser) r p' :
  (n <- get_node ;; ret (Ok n)) p = Done r p' -> p' = p /\ r = Ok (node p).
Proof. unfold bind, get_node, ret. intros H. injection H as <- <-. auto. Qed.

Section Keeps.

Variable h : Heap.

Lemma primitive_cases (p : Parser) (link : html.Node -> option ptr) (dl : Z)
    (m : M Result) :
  (forall nd, h (node p) = Some nd ->
     m p = match link nd with
           | None => Done (Fail ErrNoSuchRelative) p
           | Some s => Done (Ok s) (mkParser (doc p) s (dl))
           end) ->
  (h (node p) = None -> m p = Panic) ->
  forall r p', m p = Done r p' ->
    doc p' = doc p /\
    match r with
    | Ok n => n = node p'
    | Fail e => Some ErrNoSuchRelative = Some e /\ p' = p
    end.
Proof.
  intros HS HN r p' H. destruct (h (node p)) as [nd|] eqn:E.
  - rewrite (HS nd eq_refl) in H. destruct (link nd).
    + injection H as <- <-. auto.
    + injection H as <- <-. auto.
  - rewrite (HN eq_refl) in H. discriminate.
Qed.

Lemma moves_panic_all p :
  h (node p) = None ->
  Parent h p = Panic /\ FirstChild h p = Panic /\ LastChild h p = Panic /\
  NextSibling h p = Panic /\ PrevSibling h p = Panic.
Proof.
  intros H. destruct p as [d n l]. simpl in H. run_go. rewrite H. auto.
Qed.

Lemma primitives_keep p r p' :
  (Parent h p = Done r p' \/ FirstChild h p = Done r p' \/
   LastChild h p = Done r p' \/ NextSibling h p = Done r p' \/
   PrevSibling h p = Done r p') ->
  doc p' = doc p /\
  match r with
  | Ok n => n = node p'
  | Fail e => Some ErrNoSuchRelative = Some e /\ p' = p
  end.
Proof.
  intros [H | [H | [H | [H | H]]]].
  - apply (@primitive_cases p html.Parent (int_wrap (level p - 1)) (Parent h));
      [| |exact H].
    + intros nd E. now destruct (moves_spec h p E) as (? & ? & ? & ? & ?).
    + intros E. now destruct (moves_panic_all p E) as (? & ? & ? & ? & ?).
  - apply (@primitive_cases p html.FirstChild (int_wrap (level p + 1)) (FirstChild h));
      [| |exact H].
    + intros nd E. now destruct (moves_spec h p E) as (? & ? & ? & ? & ?).
    + intros E. now destruct (moves_panic_all p E) as (? & ? & ? & ? & ?).
  - apply (@primitive_cases p html.LastChild (int_wrap (level p + 1)) (LastChild h));
      [| |exact H].
    + intros nd E. now destruct (moves_spec h p E) as (? & ? & ? & ? & ?).
    + intros E. now destruct (moves_panic_all p E) as (? & ? & ? & ? & ?).
  - apply (@primitive_cases p html.NextSibling (level p) (NextSibling h));
      [| |exact H].
    + intros nd E. now destruct (moves_spec h p E) as (? & ? & ? & ? & ?).
    + intros E. now destruct (moves_panic_all p E) as (? & ? & ? & ? & ?).
  - apply (@primitive_cases p html.PrevSibling (level p) (PrevSibling h));
      [| |exact H].
    + intros nd E. now destruct (moves_spec h p E) as (? & ? & ? & ? & ?).
    + intros E. now destruct (moves_panic_all p E) as (? & ? & ? & ? & ?).
Qed.

Lemma isElem_same n p b p1 : isElem h n p = Done b p1 -> p1 = p.
Proof.
  unfold isElem, bind, load, ret. destruct (h n); [|discriminate].
  intros H. now injection H as _ <-.
Qed.

Lemma matches_same a p b p1 : matches h a p = Done b p1 -> p1 = p.
Proof.
  unfold matches. intros H.
  apply bind_inv in H. destruct H as (n & p2 & H1 & H).
  injection H1 as <- <-.
  apply bind_inv in H. destruct H as (e & p3 & H2 & H).
  apply isElem_same in H2. subst p3. destruct e.
  - revert H. unfold bind, get_node, load, ret. destruct (h (node p)); [|discriminate].
    intros H. now injection H as _ <-.
  - now injection H as _ <-.
Qed.

Lemma nextSiblingAscending_loop_node fuel : forall p r p',
  nextSiblingAscending_loop h fuel p = Done r p' ->
  forall n, r = Some n -> n = node p'.
Proof.
  induction fuel as [|fuel IH]; intros p r p' H n En; [discriminate|].
  cbn [nextSiblingAscending_loop] in H.
  apply bind_inv in H. destruct H as (r1 & p1 & H1 & H). destruct r1 as [m|e].
  - unfold bind, get_node, ret in H. injection H as <- <-. now injection En as <-.
  - apply bind_inv in H. destruct H as (r2 & p2 & H2 & H). destruct r2 as [m|e'].
    + exact (IH _ _ _ H n En).
    + injection H as <- _. discriminate.
Qed.

Lemma nextSiblingAscending_keeps fuel p r p' :
  nextSiblingAscending h fuel p = Done r p' ->
  doc p' = doc p /\
  match r with
  | Ok n => n = node p'
  | Fail e => Some ErrNoSuchRelative = Some e /\ p' = p
  end.
Proof.
  intros H. destruct r as [n|e].
  - revert H. unfold nextSiblingAscending, bind at 1 2 3, get_node, get_level.
    destruct (nextSiblingAscending_loop h fuel p) as [[m|] p1| |] eqn:E;
      try discriminate.
    intros H. injection H as <- <-. split.
    + exact (nextSiblingAscending_loop_doc _ _ _ E).
    + exact (nextSiblingAscending_loop_node _ _ E eq_refl).
  - pose proof (nextSiblingAscending_fails _ _ _ H) as ->. split; [reflexivity|].
    split; [|reflexivity].
    revert H. unfold nextSiblingAscending, bind at 1 2 3, get_node, get_level.
    destruct (nextSiblingAscending_loop h fuel p) as [[m|] p1| |];
      try discriminate.
    run_go. intros H. now injection H as <-.
Qed.

Lemma prevSiblingDescending_loop_doc fuel : forall p u p',
  prevSiblingDescending_loop h fuel p = Done u p' -> doc p' = doc p.
Proof.
  induction fuel as [|fuel IH]; intros p u p' H; [discriminate|].
  cbn [prevSiblingDescending_loop] in H.
  apply bind_inv in H. destruct H as (r1 & p1 & H1 & H).
  assert (Hk := primitives_keep p (or_intror (or_intror (or_introl H1)))).
  destruct Hk as [Hd Hr]. destruct r1 as [m|e].
  - apply IH in H. congruence.
  - injection H as _ <-. exact Hd.
Qed.

Lemma prevSiblingDescending_keeps fuel p r p' :
  prevSiblingDescending h fuel p = Done r p' ->
  doc p' = doc p /\
  match r with
  | Ok n => n = node p'
  | Fail e => Some ErrNoSuchRelative = Some e /\ p' = p
  end.
Proof.
  unfold prevSiblingDescending. intros H.
  apply bind_inv in H. destruct H as (r1 & p1 & H1 & H).
  assert (Hk := primitives_keep p
                  (or_intror (or_intror (or_intror (or_intror H1))))).
  destruct Hk as [Hd Hr]. destruct r1 as [m|e].
  - apply bind_inv in H. destruct H as (u & p2 & H2 & H).
    apply prevSiblingDescending_loop_doc in H2.
    apply answer_node in H. destruct H as [-> ->]. split; [congruence | reflexivity].
  - destruct Hr as [_ ->]. injection H as <- <-. auto.
Qed.

Lemma Next_keeps fuel p r p' :
  Next h fuel p = Done r p' ->
  doc p' = doc p /\
  match r with
  | Ok n => n = node p'
  | Fail e => Some ErrEndOfDoc = Some e /\ p' = p
  end.
Proof.
  intros H. destruct r as [n|e].
  - unfold Next in H. apply bind_inv in H. destruct H as (r1 & p1 & H1 & H).
    assert (Hk := primitives_keep p (or_intror (or_introl H1))).
    destruct Hk as [Hd Hr]. destruct r1 as [m|e].
    + apply answer_node in H. destruct H as [-> H]. injection H as ->. auto.
    + destruct Hr as [_ ->].
      apply bind_inv in H. destruct H as (r2 & p2 & H2 & H).
      apply nextSiblingAscending_keeps in H2. destruct H2 as [Hd2 Hr2].
      destruct r2 as [m|e'].
      * apply answer_node in H. destruct H as [-> H]. injection H as ->. auto.
      * discriminate.
  - destruct (Next_fails _ _ _ H) as [-> ->]. auto.
Qed.

Lemma Prev_keeps fuel p r p' :
  Prev h fuel p = Done r p' ->
  doc p' = doc p /\
  match r with
  | Ok n => n = node p'
  | Fail e => Some ErrBegOfDoc = Some e /\ p' = p
  end.
Proof.
  unfold Prev. intros H. apply bind_inv in H. destruct H as (r1 & p1 & H1 & H).
  apply prevSiblingDescending_keeps in H1. destruct H1 as [Hd Hr].
  destruct r1 as [m|e].
  - apply answer_node in H. destruct H as [-> ->]. auto.
  - destruct Hr as [_ ->].
    apply bind_inv in H. destruct H as (r2 & p2 & H2 & H).
    assert (Hk := primitives_keep p (or_introl H2)).
    destruct Hk as [Hd2 Hr2]. destruct r2 as [m|e'].
    + apply answer_node in H. destruct H as [-> ->]. auto.
    + destruct Hr2 as [_ ->]. injection H as <- <-. auto.
Qed.

Lemma NextElement_loop_keeps inner fuel : forall p r p',
  NextElement_loop h inner fuel p = Done r p' ->
  doc p' = doc p /\
  match r with
  | Ok n => n = node p' /\ isElem h (node p') p' = Done true p'
  | Fail e => Some ErrEndOfDoc = Some e
  end.
Proof.
  induction fuel as [|fuel IH]; intros p r p' H; cbn [NextElement_loop] in H;
    apply bind_inv in H; destruct H as (n & p1 & H1 & H);
    injection H1 as <- <-;
    apply bind_inv in H; destruct H as (b & p2 & H2 & H);
    pose proof (isElem_same _ _ H2) as ->; destruct b.
  - apply answer_node in H. destruct H as [-> ->]. auto.
  - discriminate.
  - apply answer_node in H. destruct H as [-> ->]. auto.
  - apply bind_inv in H. destruct H as (r1 & p3 & H3 & H).
    apply Next_keeps in H3. destruct H3 as [Hd Hr]. destruct r1 as [m|e].
    + apply IH in H. destruct H as [Hd' Hr']. split; [congruence | exact Hr'].
    + destruct Hr as [_ ->]. injection H as <- <-. auto.
Qed.

Lemma PrevElement_loop_keeps inner fuel : forall p r p',
  PrevElement_loop h inner fuel p = Done r p' ->
  doc p' = doc p /\
  match r with
  | Ok n => n = node p' /\ isElem h (node p') p' = Done true p'
  | Fail e => Some ErrBegOfDoc = Some e
  end.
Proof.
  induction fuel as [|fuel IH]; intros p r p' H; cbn [PrevElement_loop] in H;
    apply bind_inv in H; destruct H as (n & p1 & H1 & H);
    injection H1 as <- <-;
    apply bind_inv in H; destruct H as (b & p2 & H2 & H);
    pose proof (isElem_same _ _ H2) as ->; destruct b.
  - apply answer_node in H. destruct H as [-> ->]. auto.
  - discriminate.
  - apply answer_node in H. destruct H as [-> ->]. auto.
  - apply bind_inv in H. destruct H as (r1 & p3 & H3 & H).
    apply Prev_keeps in H3. destruct H3 as [Hd Hr]. destruct r1 as [m|e].
    + apply IH in H. destruct H as [Hd' Hr']. split; [congruence | exact Hr'].
    + destruct Hr as [_ ->]. injection H as <- <-. auto.
Qed.

Lemma ElementByAtom_loop_keeps a inner fuel : forall p r p',
  ElementByAtom_loop h a inner fuel p = Done r p' ->
  doc p' = doc p /\
  match r with
  | Ok n => n = node p' /\ matches h a p' = Done true p'
  | Fail e => Some ErrEndOfDoc = Some e
  end.
Proof.
  induction fuel as [|fuel IH]; intros p r p' H; cbn [ElementByAtom_loop] in H;
    apply bind_inv in H; destruct H as (b & p1 & H1 & H);
    pose proof (matches_same _ _ H1) as ->; destruct b.
  - apply answer_node in H. destruct H as [-> ->]. auto.
  - discriminate.
  - apply answer_node in H. destruct H as [-> ->]. auto.
  - apply bind_inv in H. destruct H as (r1 & p3 & H3 & H).
    apply Next_keeps in H3. destruct H3 as [Hd Hr]. destruct r1 as [m|e].
    + apply IH in H. destruct H as [Hd' Hr']. split; [congruence | exact Hr'].
    + destruct Hr as [He ->]. injection He as <-. injection H as <- <-. auto.
Qed.

Lemma NextElementByAtom_keeps a fuel p r p' :
  NextElementByAtom h a fuel p = Done r p' ->
  doc p' = doc p /\
  match r with
  | Ok n => n = node p' /\ matches h a p' = Done true p'
  | Fail e => Some ErrEndOfDoc = Some e
  end.
Proof.
  unfold NextElementByAtom. intros H.
  apply bind_inv in H. destruct H as (r1 & p1 & H1 & H).
  apply Next_keeps in H1. destruct H1 as [Hd Hr]. destruct r1 as [m|e].
  - apply ElementByAtom_loop_keeps in H. destruct H as [Hd' Hr'].
    split; [congruence | exact Hr'].
  - destruct Hr as [He ->]. injection He as <-. injection H as <- <-. auto.
Qed.

Lemma FirstElementByAtom_from_root a fuel p :
  FirstElementByAtom h a fuel p =
  NextElementByAtom h a fuel (NewParser (doc p)).
Proof. destruct p as [d n l]. reflexivity. Qed.

Lemma FirstElementByAtom_keeps a fuel p r p' :
  FirstElementByAtom h a fuel p = Done r p' ->
  doc p' = doc p /\
  match r with
  | Ok n => n = node p' /\ matches h a p' = Done true p'
  | Fail e => Some ErrEndOfDoc = Some e
  end.
Proof.
  rewrite FirstElementByAtom_from_root. intros H.
  apply NextElementByAtom_keeps in H. exact H.
Qed.

Lemma weaken_keeps (err : option Error) (m : M Result) :
  (forall p r p',
     m p = Done r p' ->
     doc p' = doc p /\
     match r with
     | Ok n => n = node p'
     | Fail e => err = Some e /\ p' = p
     end) ->
  keeps err m.
Proof.
  intros H p r p' E. destruct (H p r p' E) as [Hd Hr]. split; [exact Hd|].
  destruct r; [exact Hr | apply Hr].
Qed.

Lemma weaken_keeps_match (err : option Error) (m : M Result) (Q : Parser -> Prop) :
  (forall p r p',
     m p = Done r p' ->
     doc p' = doc p /\
     match r with
     | Ok n => n = node p' /\ Q p'
     | Fail e => err = Some e
     end) ->
  keeps err m.
Proof.
  intros H p r p' E. destruct (H p r p' E) as [Hd Hr]. split; [exact Hd|].
  destruct r; [apply Hr | exact Hr].
Qed.

Lemma exec_keeps (ab ah am : Atom) (o : Op) (fuel : nat) :
  keeps (error_of o) (exec h ab ah am o fuel).
Proof.
  destruct o; cbn [exec error_of]; unfold Body, Head, FirstMeta, NextMeta.
  - apply weaken_keeps. intros p r p'. apply Next_keeps.
  - apply weaken_keeps. intros p r p'. apply Prev_keeps.
  - eapply weaken_keeps_match. intros p r p'. apply NextElement_loop_keeps.
  - eapply weaken_keeps_match. intros p r p'. apply PrevElement_loop_keeps.
  - apply weaken_keeps. intros p r p' H. apply primitives_keep. tauto.
  - apply weaken_keeps. intros p r p' H. apply primitives_keep. tauto.
  - apply weaken_keeps. intros p r p' H. apply primitives_keep. tauto.
  - apply weaken_keeps. intros p r p' H. apply primitives_keep. tauto.
  - apply weaken_keeps. intros p r p' H. apply primitives_keep. tauto.
  - eapply weaken_keeps_match. intros p r p'. apply FirstElementByAtom_keeps.
  - eapply weaken_keeps_match. intros p r p'. apply FirstElementByAtom_keeps.
  - eapply weaken_keeps_match. intros p r p'. apply FirstElementByAtom_keeps.
  - eapply weaken_keeps_match. intros p r p'. apply NextElementByAtom_keeps.
  - eapply weaken_keeps_match. intros p r p'. apply FirstElementByAtom_keeps.
  - eapply weaken_keeps_match. intros p r p'. apply NextElementByAtom_keeps.
  - intros [d n l] r p' H. cbv in H. injection H as <- <-. auto.
Qed.

Lemma run_doc (ab ah am : Atom) (ops : list Op) (fuel : nat) : forall p u p',
  run h ab ah am ops fuel p = Done u p' -> doc p' = doc p.
Proof.
  induction ops as [|o ops IH]; intros p u p' H; cbn [run] in H.
  - now injection H as _ <-.
  - apply bind_inv in H. destruct H as (r & p1 & H1 & H).
    apply exec_keeps in H1. destruct H1 as [Hd _]. apply IH in H. congruence.
Qed.

End Keeps.

Lemma on_element_stays (h : Heap) (p : Parser) :
  isElem h (node p) p = Done true p ->
  forall inner fuel,
    NextElement_loop h inner fuel p = Done (Ok (node p)) p /\
    PrevElement_loop h inner fuel p = Done (Ok (node p)) p.
Proof.
  intros E inner fuel.
  split; destruct fuel; cbn [NextElement_loop PrevElement_loop];
    unfold bind at 1, get_node at 1; cbn beta; unfold bind at 1;
    rewrite E; reflexivity.
Qed.

(** X1. No method changes the document the receiver was built on: after any
    sequence of calls that returns, on any heap, [doc] is what it was, and a
    [Reset] then puts the receiver in the very state [NewParser] gives. *)
Theorem Reset_restores_construction
    (h : Heap) (ab ah am : Atom) (ops : list Op) (fuel : nat)
    (p : Parser) (u : unit) (p' : Parser) :
  run h ab ah am ops fuel p = Done u p' ->
  doc p' = doc p /\
  Reset p' = Done (doc p) (NewParser (doc p)).
Proof.
  intros H. apply run_doc in H. split; [exact H|].
  destruct p' as [d n l]. simpl in H. subst d. reflexivity.
Qed.

Lemma Reset_restores_construction_witness :
  Reset Sample.on_text = Done [] (NewParser []).
Proof.
  exact (proj2 (@Reset_restores_construction Sample.hp Sample.a_body
                  Sample.a_head Sample.a_meta
                  [OpBody; OpFirstChild; OpFirstChild; OpNext] 6
                  (NewParser []) tt Sample.on_text eq_refl)).
Defined.

(** X2. On any heap, the node a method answers is the node the receiver is
    on when the method has returned: what [Node] answers next. *)
Theorem answer_is_current_node
    (h : Heap) (ab ah am : Atom) (o : Op) (fuel : nat)
    (p : Parser) (n : ptr) (p' : Parser) :
  exec h ab ah am o fuel p = Done (Ok n) p' ->
  Node p' = Done n p'.
Proof.
  intros H. apply exec_keeps in H. destruct H as [_ ->]. reflexivity.
Qed.

Lemma answer_is_current_node_witness :
  Node Sample.on_body = Done [1; 0] Sample.on_body.
Proof.
  exact (@answer_is_current_node Sample.hp Sample.a_body Sample.a_head
           Sample.a_meta OpBody 6 Sample.on_text [1; 0] Sample.on_body eq_refl).
Defined.

(** X3. On any heap every method has one error: [Next], [NextElement] and
    the searches by atom (with [Body], [Head], [FirstMeta], [NextMeta])
    answer only [ErrEndOfDoc], [Prev] and [PrevElement] only [ErrBegOfDoc],
    the five primitive moves and the two sibling searches only
    [ErrNoSuchRelative]; [Reset] never fails. *)
Theorem one_error_per_method
    (h : Heap) (ab ah am : Atom) (o : Op) (fuel : nat)
    (p : Parser) (e : Error) (p' : Parser) :
  (exec h ab ah am o fuel p = Done (Fail e) p' -> error_of o = Some e) /\
  (nextSiblingAscending h fuel p = Done (Fail e) p' -> e = ErrNoSuchRelative) /\
  (prevSiblingDescending h fuel p = Done (Fail e) p' -> e = ErrNoSuchRelative).
Proof.
  split; [|split]; intros H.
  - apply exec_keeps in H. apply H.
  - apply nextSiblingAscending_keeps in H. destruct H as (_ & H & _).
    now injection H.
  - apply prevSiblingDescending_keeps in H. destruct H as (_ & H & _).
    now injection H.
Qed.

(** On the sample document, from the text of [<p>], the last node: the
    search for a [<meta>] fails, with the error of [Next]. *)
Lemma one_error_per_method_witness :
  NextMeta Sample.hp Sample.a_meta 6 Sample.on_text =
    Done (Fail ErrEndOfDoc) Sample.on_text /\
  error_of OpNextMeta = Some ErrEndOfDoc.
Proof.
  split; [reflexivity|].
  exact (proj1 (@one_error_per_method Sample.hp Sample.a_body Sample.a_head
                  Sample.a_meta OpNextMeta 6 Sample.on_text ErrEndOfDoc
                  Sample.on_text) eq_refl).
Defined.

(** X4. On any heap and with any fuel, a failing [Prev], a failing
    [nextSiblingAscending] and a failing [prevSiblingDescending] leave the
    receiver as it was. *)
Theorem stepping_failures_restore
    (h : Heap) (fuel : nat) (p : Parser) (e : Error) (p' : Parser) :
  Prev h fuel p = Done (Fail e) p' \/
  nextSiblingAscending h fuel p = Done (Fail e) p' \/
  prevSiblingDescending h fuel p = Done (Fail e) p' ->
  p' = p.
Proof.
  intros [H | [H | H]].
  - apply Prev_keeps in H. apply H.
  - apply nextSiblingAscending_keeps in H. apply H.
  - apply prevSiblingDescending_keeps in H. apply H.
Qed.

Lemma stepping_failures_restore_witness :
  Prev Sample.hp 6 (NewParser []) = Done (Fail ErrBegOfDoc) (NewParser []) /\
  NewParser [] = NewParser [].
Proof.
  split; [reflexivity|].
  exact (@stepping_failures_restore Sample.hp 6 (NewParser [])
           ErrBegOfDoc (NewParser []) (or_introl eq_refl)).
Defined.

(** X5. On any heap, once [NextElement] or [PrevElement] has answered a
    node, calling either of them again answers the same node and moves
    nothing, with any fuel: they do not step off an element. *)
Theorem element_search_stays
    (h : Heap) (fuel fuel' : nat) (p : Parser) (r : ptr) (p' : Parser) :
  NextElement h fuel p = Done (Ok r) p' \/
  PrevElement h fuel p = Done (Ok r) p' ->
  NextElement h fuel' p' = Done (Ok r) p' /\
  PrevElement h fuel' p' = Done (Ok r) p'.
Proof.
  intros H.
  assert (E : r = node p' /\ isElem h (node p') p' = Done true p').
  { destruct H as [H | H].
    - apply NextElement_loop_keeps in H. apply H.
    - apply PrevElement_loop_keeps in H. apply H. }
  destruct E as [-> E]. unfold NextElement, PrevElement.
  apply (@on_element_stays h p' E).
Qed.

(** On the sample document, from the root: [NextElement] goes to [<html>],
    and a second call stays there. *)
Lemma element_search_stays_witness :
  NextElement Sample.hp 6 (mkParser [] [0] 1) =
    Done (Ok [0]) (mkParser [] [0] 1) /\
  PrevElement Sample.hp 6 (mkParser [] [0] 1) =
    Done (Ok [0]) (mkParser [] [0] 1).
Proof.
  exact (@element_search_stays Sample.hp 6 6 (NewParser []) [0]
           (mkParser [] [0] 1) (or_introl eq_refl)).
Defined.

(** ** The heap of a tree: moves that undo each other *)

Lemma is_node_earlier (t : tree) (j : nat) (q : ptr) :
  is_node t (S j :: q) = true -> is_node t (j :: q) = true.
Proof.
  intros H. pose proof H as Hp. apply is_node_parent, is_node_true in Hp.
  destruct Hp as [s Hs]. apply (is_node_child t (S j) q Hs) in H.
  apply (is_node_child t j q Hs). lia.
Qed.

(** X6. On the heap of a tree: [Parent] after a successful [FirstChild] or
    [LastChild] brings back the node and the level; [PrevSibling] after a
    successful [NextSibling] does, and [NextSibling] after a successful
    [PrevSibling]. *)
Theorem primitive_moves_undo (t : tree) (d q : ptr) (l : Z) (r : ptr) (p1 : Parser) :
  is_node t q = true -> in_int l ->
  (FirstChild (heap_of t) (mkParser d q l) = Done (Ok r) p1 \/
   LastChild (heap_of t) (mkParser d q l) = Done (Ok r) p1 ->
   Parent (heap_of t) p1 = Done (Ok q) (mkParser d q l)) /\
  (NextSibling (heap_of t) (mkParser d q l) = Done (Ok r) p1 ->
   PrevSibling (heap_of t) p1 = Done (Ok q) (mkParser d q l)) /\
  (PrevSibling (heap_of t) (mkParser d q l) = Done (Ok r) p1 ->
   NextSibling (heap_of t) p1 = Done (Ok q) (mkParser d q l)).
Proof.
  intros Hq Hl. pose proof Hq as Hs. apply is_node_true in Hs.
  destruct Hs as [s Hs]. split; [|split].
  - intros [H | H].
    + rewrite (FirstChild_tree t d q l Hs) in H.
      destruct (children s) as [|c cs] eqn:E; [discriminate|].
      injection H as <- <-. rewrite Parent_tree.
      * do 2 f_equal. unfold Z.sub. apply int_wrap_round; [assumption | lia].
      * apply (is_node_child t 0 q Hs). rewrite E. simpl. lia.
    + rewrite (LastChild_tree t d q l Hs) in H.
      destruct (children s) as [|c cs] eqn:E; [discriminate|].
      injection H as <- <-. rewrite Parent_tree.
      * do 2 f_equal. unfold Z.sub. apply int_wrap_round; [assumption | lia].
      * apply (is_node_child t (length cs) q Hs). rewrite E. simpl. lia.
  - intros H. rewrite NextSibling_tree in H by assumption.
    destruct q as [|i q']; [discriminate|].
    destruct (is_node t (S i :: q')) eqn:E; [|discriminate].
    injection H as <- <-. now rewrite PrevSibling_tree.
  - intros H. rewrite PrevSibling_tree in H by assumption.
    destruct q as [|[|j] q']; try discriminate.
    injection H as <- <-.
    rewrite NextSibling_tree by now apply is_node_earlier.
    now rewrite Hq.
Qed.

(** On the sample document: from [<body>] down to [<p>] and up again; from
    [<head>] over to [<body>] and back. *)
Lemma primitive_moves_undo_witness :
  Parent Sample.hp (mkParser [] [0; 1; 0] 3) = Done (Ok [1; 0]) Sample.on_body /\
  PrevSibling Sample.hp Sample.on_body = Done (Ok [0; 0]) Sample.on_head.
Proof.
  split.
  - exact (proj1 (@primitive_moves_undo Sample.root [] [1; 0] 2 [0; 1; 0]
                    (mkParser [] [0; 1; 0] 3) eq_refl
                    ltac:(unfold in_int, int_min, int_max; lia))
             (or_introl eq_refl)).
  - exact (proj1 (proj2 (@primitive_moves_undo Sample.root [] [0; 0] 2 [1; 0]
                    Sample.on_body eq_refl
                    ltac:(unfold in_int, int_min, int_max; lia)))
             eq_refl).
Defined.

Lemma prevSiblingDescending_tree (t : tree) (d q : ptr) (l : Z) (fuel : nat) :
  is_node t q = true -> in_int l -> size t <= fuel ->
  match q with
  | S j :: q' =>
      exists z,
        last_chain t (j :: q') z /\
        prevSiblingDescending (heap_of t) fuel (mkParser d q l) =
        Done (Ok z)
          (mkParser d z (int_wrap (l + Z.of_nat (length z) - Z.of_nat (length q))))
  | _ =>
      prevSiblingDescending (heap_of t) fuel (mkParser d q l) =
      Done (Fail ErrNoSuchRelative) (mkParser d q l)
  end.
Proof.
  intros Hq Hl Hf. destruct q as [|[|j] q'].
  - unfold prevSiblingDescending, bind at 1. now rewrite PrevSibling_tree.
  - unfold prevSiblingDescending, bind at 1. now rewrite PrevSibling_tree.
  - pose proof (is_node_earlier t j q' Hq) as Hj.
    pose proof Hj as Hs. apply is_node_true in Hs. destruct Hs as [s Hs].
    destruct (last_chain_exists t _ Hs) as [z Hz]. exists z. split; [exact Hz|].
    destruct (last_chain_end Hz) as ((ty & a & Hzl) & Hlen & _).
    assert (Hzn : length z < size t).
    { apply node_depth, is_node_true. eauto. }
    unfold prevSiblingDescending, bind at 1.
    rewrite PrevSibling_tree by assumption. unfold bind at 1.
    rewrite (prevSiblingDescending_loop_tree d Hz Hl) by lia.
    reflexivity.
Qed.

(** X7. On the heap of a tree, with fuel for its size: the node a successful
    [prevSiblingDescending] ends on has no child, and
    [nextSiblingAscending] from there brings back the node and the level
    the search started from. *)
Theorem descending_then_ascending
    (t : tree) (d q : ptr) (l : Z) (fuel : nat) (z : ptr) (p1 : Parser) :
  is_node t q = true -> in_int l -> size t <= fuel ->
  prevSiblingDescending (heap_of t) fuel (mkParser d q l) = Done (Ok z) p1 ->
  FirstChild (heap_of t) p1 = Done (Fail ErrNoSuchRelative) p1 /\
  nextSiblingAscending (heap_of t) fuel p1 = Done (Ok q) (mkParser d q l).
Proof.
  intros Hq Hl Hf H.
  pose proof (prevSiblingDescending_tree t d q Hq Hl Hf) as HT.
  destruct q as [|[|j] q']; try congruence.
  destruct HT as (z' & Hz & HT). rewrite HT in H. injection H as <- <-.
  destruct (last_chain_end Hz) as ((ty & a & Hzl) & Hlen & Ha).
  assert (Hzn : is_node t z' = true) by (apply is_node_true; eauto).
  split.
  - now rewrite (FirstChild_tree t d z' _ Hzl).
  - rewrite nextSiblingAscending_tree;
      [| assumption | apply int_wrap_in | apply node_depth in Hzn; lia].
    rewrite Ha. cbn [ascend_ptr]. rewrite Hq. do 2 f_equal.
    rewrite <- !Z.add_sub_assoc. apply int_wrap_round; [assumption|].
    rewrite ?Zpos_P_of_succ_nat. simpl length. lia.
Qed.

(** On the sample document, from [<body>]: down to [<head>], which has no
    child, and back. *)
Lemma descending_then_ascending_witness :
  FirstChild Sample.hp Sample.on_head =
    Done (Fail ErrNoSuchRelative) Sample.on_head /\
  nextSiblingAscending Sample.hp 6 Sample.on_head =
    Done (Ok [1; 0]) Sample.on_body.
Proof.
  exact (@descending_then_ascending Sample.root [] [1; 0] 2 6 [0; 0]
           Sample.on_head eq_refl
           ltac:(unfold in_int, int_min, int_max; lia)
           ltac:(simpl; lia) eq_refl).
Defined.

(** ** The heap of a tree: searching by atom again and again *)

Lemma calls_same_start (step : M Result) (n : nat) (p p2 : Parser) :
  step p = step p2 -> calls step (S n) p = calls step (S n) p2.
Proof. intros E. cbn [calls]. now rewrite E. Qed.

Lemma NextElementByAtom_calls (t : tree) (d : ptr) (fuel : nat) (a : Atom) :
  size t <= fuel ->
  forall rest pre q,
    preorder t = pre ++ q :: rest ->
    calls (NextElementByAtom (heap_of t) a fuel)
      (S (length (filter (is_match_at t a) rest))) (cursor d q) =
    map (moved d) (filter (is_match_at t a) rest) ++
    [Done (Fail ErrEndOfDoc) (cursor d (last rest q))].
Proof.
  intros Hf. induction rest as [|b rest IH]; intros pre q Hs.
  - cbn [filter length calls map app last].
    rewrite (@NextElementByAtom_tree t d fuel Hf pre q [] Hs a). reflexivity.
  - assert (Hs' : preorder t = (pre ++ [q]) ++ b :: rest)
      by (now rewrite <- app_assoc).
    pose proof (@NextElementByAtom_tree t d fuel Hf pre q (b :: rest) Hs a) as Hq.
    pose proof (@NextElementByAtom_tree t d fuel Hf _ b rest Hs' a) as Hb.
    specialize (IH _ b Hs'). rewrite last_cons. cbn [find filter] in *.
    destruct (is_match_at t a b).
    + cbn [length map app]. rewrite <- IH.
      change (calls (NextElementByAtom (heap_of t) a fuel)
                (S (S (length (filter (is_match_at t a) rest)))) (cursor d q))
        with (NextElementByAtom (heap_of t) a fuel (cursor d q) ::
              match NextElementByAtom (heap_of t) a fuel (cursor d q) with
              | Done _ p' =>
                  calls (NextElementByAtom (heap_of t) a fuel)
                    (S (length (filter (is_match_at t a) rest))) p'
              | _ => []
              end).
      rewrite Hq. reflexivity.
    + rewrite <- IH. apply calls_same_start.
      rewrite last_cons in Hq. now rewrite Hq, Hb.
Qed.

(** X8. On the heap of a tree, with fuel for its size, wherever the receiver
    stands: [FirstMeta] and then [NextMeta] again and again answer the
    elements with the atom that come after the root, all of them, each once,
    in document order; the call after the last one fails with [ErrEndOfDoc]
    and leaves the receiver on the last node of the document. *)
Theorem FirstMeta_NextMeta_enumerate
    (t : tree) (a : Atom) (fuel : nat) (p : Parser) :
  size t <= fuel ->
  doc p = [] ->
  match filter (is_match_at t a) (tl (preorder t)) with
  | [] =>
      FirstMeta (heap_of t) a fuel p =
      Done (Fail ErrEndOfDoc) (cursor [] (last (preorder t) []))
  | m :: ms =>
      FirstMeta (heap_of t) a fuel p = moved [] m /\
      calls (NextMeta (heap_of t) a fuel) (S (length ms)) (cursor [] m) =
      map (moved []) ms ++
      [Done (Fail ErrEndOfDoc) (cursor [] (last (preorder t) []))]
  end.
Proof.
  intros Hf Hd.
  pose proof (preorder_from_cons [] t) as Hc. fold (preorder t) in Hc.
  pose proof (@NextElementByAtom_calls t [] fuel a Hf (tl (preorder t)) [] [] Hc)
    as HC.
  assert (EL : last (tl (preorder t)) [] = last (preorder t) []).
  { destruct (preorder t) as [|x L]; [discriminate|].
    injection Hc as ->. symmetry. apply last_cons. }
  rewrite EL in HC.
  assert (E : FirstMeta (heap_of t) a fuel p =
              NextElementByAtom (heap_of t) a fuel (cursor [] [])).
  { unfold FirstMeta. rewrite FirstElementByAtom_from_root, Hd. reflexivity. }
  rewrite E. unfold NextMeta.
  destruct (filter (is_match_at t a) (tl (preorder t))) as [|m ms].
  - cbn [length calls map app] in HC. now injection HC.
  - cbn [length map app] in HC.
    change (calls (NextElementByAtom (heap_of t) a fuel)
              (S (S (length ms))) (cursor [] []))
      with (NextElementByAtom (heap_of t) a fuel (cursor [] []) ::
            match NextElementByAtom (heap_of t) a fuel (cursor [] []) with
            | Done _ p' =>
                calls (NextElementByAtom (heap_of t) a fuel) (S (length ms)) p'
            | _ => []
            end) in HC.
    injection HC as H1 H2. rewrite H1 in H2. split; [exact H1 | exact H2].
Qed.

(** A head with two [<meta>]: both are answered, then the search fails on
    [<body>], the last node. *)
Lemma FirstMeta_NextMeta_enumerate_witness :
  FirstMeta Metas.hp Sample.a_meta 6 Sample.on_text = moved [] [0; 0; 0] /\
  calls (NextMeta Metas.hp Sample.a_meta 6) 2 (cursor [] [0; 0; 0]) =
  [moved [] [1; 0; 0]; Done (Fail ErrEndOfDoc) (cursor [] [1; 0])].
Proof.
  exact (@FirstMeta_NextMeta_enumerate Metas.root Sample.a_meta 6 Sample.on_text
           ltac:(simpl; lia) eq_refl).
Defined.

(** X9. On the heap of a tree, with fuel for its size: what
    [FirstElementByAtom] answers does not depend on the node or the level
    the receiver had, and it is never the root, not even when the root is an
    element with the atom. *)
Theorem FirstElementByAtom_skips_root
    (t : tree) (a : Atom) (fuel : nat) (p p2 : Parser) (r : ptr) (p' : Parser) :
  size t <= fuel ->
  doc p = [] -> doc p2 = [] ->
  FirstElementByAtom (heap_of t) a fuel p = Done (Ok r) p' ->
  r <> [] /\
  FirstElementByAtom (heap_of t) a fuel p2 = Done (Ok r) p'.
Proof.
  intros Hf Hd Hd2 H. split.
  - pose proof (preorder_from_cons [] t) as Hc. fold (preorder t) in Hc.
    rewrite FirstElementByAtom_from_root, Hd in H.
    change (NewParser []) with (cursor [] []) in H.
    rewrite (@NextElementByAtom_tree t [] fuel Hf [] [] _ Hc a) in H.
    destruct (find (is_match_at t a) (tl (preorder t))) as [r'|] eqn:E;
      [|discriminate].
    injection H as H1 _. subst r'. apply find_some in E. destruct E as [E _].
    exact (@later_is_other t [] [] _ Hc r E).
  - rewrite FirstElementByAtom_from_root, Hd2.
    rewrite FirstElementByAtom_from_root, Hd in H. exact H.
Qed.

(** A fragment whose root is itself a [<p>]: the search for [<p>] from the
    root answers the inner one. *)
Lemma FirstElementByAtom_skips_root_witness :
  is_match_at (T html.ElementNode Sample.a_p [Sample.para]) Sample.a_p [] = true /\
  [0] <> [] /\
  FirstElementByAtom (heap_of (T html.ElementNode Sample.a_p [Sample.para]))
    Sample.a_p 3 (mkParser [] [0; 0] 2) =
  Done (Ok [0]) (mkParser [] [0] 1).
Proof.
  split; [reflexivity|].
  exact (@FirstElementByAtom_skips_root
           (T html.ElementNode Sample.a_p [Sample.para]) Sample.a_p 3
           (NewParser []) (mkParser [] [0; 0] 2) [0] (mkParser [] [0] 1)
           ltac:(simpl; lia) eq_refl eq_refl eq_refl).
Defined.
